(** * gptv-screenshot-renamer: a shallow embedding of [main.py]

    The program finds image files, asks a remote vision model for a label
    per image (one coroutine per image, retried with exponential backoff),
    and files each image under a folder derived from its label.

    The embedding follows [main.py] function by function and keeps its names.
    What the outside world does is an input of the model:
    - what [session.post] answers at each attempt of each task
      ([response]), and what [response.json()] yields;
    - what [random.uniform(0, 1)] draws ([jitter]);
    - what [find_images] found and what the user typed at the prompt.
    Python [str] is [string] (characters are [ascii]), Python [int] is [Z],
    the [float] delay is a rational [Q]: doubling is exact on binary floats
    below the overflow threshold, so [Q] agrees with the floats there. *)

From Stdlib Require Import List String Ascii ZArith QArith Bool Lia DecimalString.
Import ListNotations.

Set Warnings "-register-all".
Open Scope string_scope.

(** ** Python values and exceptions *)

Module Py.

(** The objects [response.json()] can build, and [None]. A [dict] is an
    association list in insertion order with distinct keys. A [float] is kept
    as its literal: no claim looks inside one. *)
Inductive value : Type :=
| PNone
| PBool (b : bool)
| PInt (z : Z)
| PFloat (literal : string)
| PStr (s : string)
| PList (items : list value)
| PDict (entries : list (string * value)).

(** The exceptions the modelled code can meet. [ServerDisconnectedError] is
    the only one [label_image_async] catches. *)
Inductive exn : Type :=
| ServerDisconnectedError
| JSONDecodeError
| KeyError (key : string)
| IndexError
| TypeError
| AttributeError
| OtherError (name : string).

Definition is_server_disconnected (e : exn) : bool :=
  match e with
  | ServerDisconnectedError => true
  | _ => false
  end.

(** What evaluating an expression or running a coroutine ends in. *)
Inductive outcome (A : Type) : Type :=
| Returned (v : A)
| Raised (e : exn).

Arguments Returned {A} v.
Arguments Raised {A} e.

Definition bind {A B : Type} (m : outcome A) (k : A -> outcome B) : outcome B :=
  match m with
  | Returned v => k v
  | Raised e => Raised e
  end.

Fixpoint lookup (k : string) (entries : list (string * value)) : option value :=
  match entries with
  | [] => None
  | (k', v) :: rest => if String.eqb k k' then Some v else lookup k rest
  end.

(** [obj[key]] with a [str] key: only a [dict] accepts it. *)
Definition getitem_str (obj : value) (key : string) : outcome value :=
  match obj with
  | PDict entries =>
      match lookup key entries with
      | Some v => Returned v
      | None => Raised (KeyError key)
      end
  | _ => Raised TypeError
  end.

(** [obj[0]]: the first item of a [list], the first character of a [str];
    a [dict] built from JSON has no integer key. *)
Definition getitem_0 (obj : value) : outcome value :=
  match obj with
  | PList (x :: _) => Returned x
  | PList [] => Raised IndexError
  | PStr (String c _) => Returned (PStr (String c EmptyString))
  | PStr EmptyString => Raised IndexError
  | PDict _ => Raised (KeyError "0")
  | _ => Raised TypeError
  end.

(** [str(z)] for an [int]. *)
Definition str_of_int (z : Z) : string :=
  NilEmpty.string_of_int (Z.to_int z).

(** ** [str] methods used by the program *)

(** [s.replace(old, new)] for one-character [old] and [new]. *)
Fixpoint replace (old new : ascii) (s : string) : string :=
  match s with
  | EmptyString => EmptyString
  | String c rest =>
      String (if Ascii.eqb c old then new else c) (replace old new rest)
  end.

(** [s.split(sep)] for a one-character [sep]: never an empty list. *)
Fixpoint split (sep : ascii) (s : string) : list string :=
  match s with
  | EmptyString => [EmptyString]
  | String c rest =>
      if Ascii.eqb c sep then EmptyString :: split sep rest
      else match split sep rest with
           | piece :: pieces => String c piece :: pieces
           | [] => [String c EmptyString]
           end
  end.

(** [s[n:]]: empty once [n] reaches [len(s)]. *)
Fixpoint slice_from (n : nat) (s : string) : string :=
  match n, s with
  | O, _ => s
  | S _, EmptyString => EmptyString
  | S n', String _ rest => slice_from n' rest
  end.

(** [c.lower()] on ASCII letters. *)
Definition lower_char (c : ascii) : ascii :=
  let n := nat_of_ascii c in
  if ((65 <=? n) && (n <=? 90))%nat then ascii_of_nat (n + 32) else c.

Fixpoint lower (s : string) : string :=
  match s with
  | EmptyString => EmptyString
  | String c rest => String (lower_char c) (lower rest)
  end.

(** [c in s] for a character [c]. *)
Fixpoint contains (c : ascii) (s : string) : bool :=
  match s with
  | EmptyString => false
  | String c' rest => (Ascii.eqb c' c || contains c rest)%bool
  end.

Definition startswith (s : string) (c : ascii) : bool :=
  match s with
  | String c' _ => Ascii.eqb c' c
  | EmptyString => false
  end.

Fixpoint endswith (s : string) (c : ascii) : bool :=
  match s with
  | EmptyString => false
  | String c' EmptyString => Ascii.eqb c' c
  | String _ rest => endswith rest c
  end.

(** [os.path.join(a, b)] of [posixpath]: an absolute [b] replaces [a]. *)
Definition os_path_join (a b : string) : string :=
  if startswith b "/" then b
  else if (String.eqb a EmptyString || endswith a "/")%bool then a ++ b
  else a ++ "/" ++ b.

End Py.

Import Py.

(** ** [sanitize_label] *)

(** The list of [sanitize_label]; ["034"] is the double quote. *)
Definition invalid_chars : list ascii :=
  ["/"; ":"; "*"; "?"; "034"; "<"; ">"; "|"]%char.

(** The [for char in invalid_chars] loop, one [replace] per character. *)
Definition sanitize_label (label : string) : string :=
  fold_left (fun l char => replace char "_" l) invalid_chars label.

(** ** [label_image_async] *)

(** What [response.json()] does: the parsed body, or an exception (a body
    that is not JSON, a connection lost while reading it). *)
Definition json_result : Type := outcome value.

(** What one [session.post] does: a response with a status, or an exception
    raised by the request itself. *)
Inductive response : Type :=
| Response (status : Z) (json : json_result)
| PostRaises (e : exn).

(** What happens around one task: the answer to each attempt (0-based) and
    the successive draws of [random.uniform(0, 1)]. *)
Record task_world : Type := {
  responses : nat -> response;
  jitter : nat -> Q
}.

(** What a task does that can be observed: requests and sleeps. [Sleep d j]
    is [asyncio.sleep(d + j)] with [d] the value of [delay] and [j] the draw;
    the two are kept apart, the sum is a sum of floats and is not computed
    here. *)
Inductive event : Type :=
| Post (attempt : nat)
| Sleep (delay : Q) (draw : Q).

(** [data["choices"][0]["message"]["content"]] *)
Definition content_of (data : value) : outcome value :=
  bind (getitem_str data "choices") (fun choices =>
  bind (getitem_0 choices) (fun choice =>
  bind (getitem_str choice "message") (fun message =>
  getitem_str message "content"))).

(** [encode_image] never raises (it returns [None] when the file cannot be
    read) and only feeds the request body: what the server makes of the
    request is in the answers of the [task_world].

    The [for attempt in range(max_retries)] loop with [n] iterations left.
    [delay] is the local variable, [draws] counts the calls of
    [random.uniform] so far; the events are listed in the order they happen.
    A status other than 200 and 429 matches no branch: the iteration ends and
    the next one starts at once. When the range is used up the function falls
    off its end and returns [None]. *)
Fixpoint attempts (w : task_world) (max_retries : Z) (n attempt : nat)
    (delay : Q) (draws : nat) : outcome value * list event :=
  match n with
  | O => (Returned PNone, [])
  | S n' =>
      let backoff_or (error_text : value) :=
        if (Z.of_nat attempt <? max_retries - 1)%Z then
          let (r, evs) :=
            attempts w max_retries n' (S attempt) (delay * 2) (S draws) in
          (r, Post attempt :: Sleep delay (jitter w draws) :: evs)
        else (Returned error_text, [Post attempt]) in
      let on_exception (e : exn) :=
        if is_server_disconnected e
        then backoff_or (PStr "Error: Server disconnected")
        else (Raised e, [Post attempt]) in
      match responses w attempt with
      | Response status json =>
          if (status =? 200)%Z then
            match json with
            | Returned data =>
                match content_of data with
                | Returned v => (Returned v, [Post attempt])
                | Raised e => on_exception e
                end
            | Raised e => on_exception e
            end
          else if (status =? 429)%Z then
            backoff_or (PStr ("Error: " ++ str_of_int status))
          else
            let (r, evs) := attempts w max_retries n' (S attempt) delay draws in
            (r, Post attempt :: evs)
      | PostRaises e => on_exception e
      end
  end.

(** [range(max_retries)] is empty for [max_retries <= 0]. *)
Definition label_image_async (w : task_world) (max_retries : Z)
    (initial_delay : Q) : outcome value * list event :=
  attempts w max_retries (Z.to_nat max_retries) 0 initial_delay 0.

Definition default_max_retries : Z := 5.
Definition default_initial_delay : Q := 1.

(** The number of requests and the sleeps of a run. *)
Fixpoint posts (evs : list event) : nat :=
  match evs with
  | [] => 0
  | Post _ :: rest => S (posts rest)
  | Sleep _ _ :: rest => posts rest
  end.

Fixpoint sleeps (evs : list event) : list (Q * Q) :=
  match evs with
  | [] => []
  | Post _ :: rest => sleeps rest
  | Sleep d j :: rest => (d, j) :: sleeps rest
  end.

(** ** [get_labels] *)

(** What happens around the batch: the world of the task started for the
    file at each position of [image_files]. *)
Definition world : Type := nat -> string -> task_world.

(** What [asyncio.gather] over the tasks ends in. Without [return_exceptions] an
    exception raised by a task is raised by [gather]: the one raised first in
    time, which the model does not order; [Aborted] lists every task that
    raises, by position. *)
Inductive gathered : Type :=
| Labels (labels : list value)
| Aborted (raising : list (nat * exn)).

(** The list comprehension building [tasks], each task run on its own to
    its end: the task at position [i] is
    [label_image_async(session, image_file, openai_api_key)] with the default
    [max_retries] and [initial_delay]. When no task raises, this is what the
    tasks do. When one raises, [gather] raises at once and the other tasks
    are cancelled wherever they stand: of those, [run_tasks] tells what they
    would have done, not the requests they made. *)
Fixpoint run_tasks (w : world) (i : nat) (image_files : list string)
    : list (outcome value * list event) :=
  match image_files with
  | [] => []
  | image_file :: rest =>
      label_image_async (w i image_file) default_max_retries
        default_initial_delay
      :: run_tasks w (S i) rest
  end.

(** The results in the order of the tasks, or the exceptions with the
    positions of the tasks that raised them. *)
Fixpoint gather (i : nat) (results : list (outcome value))
    : list value * list (nat * exn) :=
  match results with
  | [] => ([], [])
  | r :: rest =>
      let (vs, es) := gather (S i) rest in
      match r with
      | Returned v => (v :: vs, es)
      | Raised e => (vs, (i, e) :: es)
      end
  end.

Definition get_labels (w : world) (image_files : list string) : gathered :=
  match gather 0 (map fst (run_tasks w 0 image_files)) with
  | (labels, []) => Labels labels
  | (_, raising) => Aborted raising
  end.

(** ** [label_and_move_images] *)

Inductive fs_action : Type :=
| Makedirs (path : string)
| Copy (src dst : string)
| Remove (path : string).

(** How a run of [label_and_move_images] ends. *)
Inductive ending : Type :=
| Declined
| GatherRaised (raising : list (nat * exn))
| LoopRaised (e : exn)
| Completed.

(** [image.split(".")[-1]] *)
Definition extension (image : string) : string :=
  last (split "." image) EmptyString.

(** The body of the [for image, label in zip(image_files, labels)] loop for
    a [str] label. *)
Definition move_one (dst_path : string) (keep_originals : bool)
    (image label : string) : list fs_action :=
  let folder_name := hd EmptyString (split "_" label) in
  let folder_path := os_path_join dst_path (folder_name ++ "s") in
  let sanitized_label :=
    sanitize_label (slice_from (String.length folder_name + 1) label) in
  let dst := os_path_join folder_path sanitized_label ++ "." ++ extension image in
  ([Makedirs folder_path; Copy image dst]
   ++ (if keep_originals then [] else [Remove image]))%list.

(** The loop on a file system whose calls all succeed: the calls it makes,
    in order, and how it ends. Only a [str] has a [split] method: any other
    label stops the loop with [AttributeError], after the items before it
    have been moved. [move_loop_on] below is the loop on a file system whose
    calls can fail. *)
Fixpoint move_loop (dst_path : string) (keep_originals : bool)
    (pairs : list (string * value)) : list fs_action * option exn :=
  match pairs with
  | [] => ([], None)
  | (image, PStr label) :: rest =>
      let (acts, err) := move_loop dst_path keep_originals rest in
      ((move_one dst_path keep_originals image label ++ acts)%list, err)
  | (_, _) :: _ => ([], Some AttributeError)
  end.

(** [image_files] is what [find_images(src_path)] returned and [answer] what
    the user typed at the prompt. This is the run on a file system whose
    calls all succeed; [label_and_move_images_on] is the run on one whose
    calls can fail. *)
Definition label_and_move_images (w : world) (image_files : list string)
    (answer : string) (src_path : string) (ask_to_proceed keep_originals : bool)
    : list fs_action * ending :=
  if (ask_to_proceed && negb (String.eqb (lower answer) "y"))%bool then
    ([], Declined)
  else
    match get_labels w image_files with
    | Aborted raising => ([], GatherRaised raising)
    | Labels labels =>
        let dst_path := os_path_join src_path "sorted" in
        let (acts, err) :=
          move_loop dst_path keep_originals (combine image_files labels) in
        (Makedirs dst_path :: acts,
         match err with Some e => LoopRaised e | None => Completed end)
    end.

(** ** Worlds used in the examples *)

Definition ok_body (label : string) : json_result :=
  Returned (PDict [("choices",
    PList [PDict [("message", PDict [("content", PStr label)])]])]).

Definition always (r : response) : nat -> response := fun _ => r.

Definition no_jitter : nat -> Q := fun _ => 0.

Definition rate_limited : response := Response 429 (Returned PNone).

(** The answers [rs] in turn, then [r] for ever. *)
Definition script (rs : list response) (r : response) : nat -> response :=
  fun attempt => nth attempt rs r.

(** The scenario of the specification: A is labelled at once, B is rate
    limited twice and then labelled, C always answers 500. *)
Definition scenario_files : list string := ["a.png"; "b.png"; "c.png"].

Definition scenario : world := fun i _ =>
  match i with
  | O => {| responses := always (Response 200 (ok_body "Screenshot_VSCode_Python"));
            jitter := no_jitter |}
  | S O => {| responses :=
                script [rate_limited; rate_limited]
                  (Response 200 (ok_body "Meme_Cat_Funny"));
              jitter := no_jitter |}
  | _ => {| responses := always (Response 500 (Returned PNone));
            jitter := no_jitter |}
  end.

(** Every answer is 200 with a JSON object that has no choices. *)
Definition malformed_world : task_world :=
  {| responses := always (Response 200 (Returned (PDict [])));
     jitter := no_jitter |}.

(** Rate limited five times; a sixth attempt would be labelled. *)
Definition late_success : task_world :=
  {| responses :=
       script [rate_limited; rate_limited; rate_limited; rate_limited;
               rate_limited]
         (Response 200 (ok_body "Meme_Cat_Funny"));
     jitter := no_jitter |}.

(** Rate limited for ever. *)
Definition throttled : task_world :=
  {| responses := always rate_limited; jitter := no_jitter |}.

(** Every answer is a 500. *)
Definition server_error : task_world :=
  {| responses := always (Response 500 (Returned PNone));
     jitter := no_jitter |}.


(** A batch of two: every answer for the first file is a 500, the second
    file is rate limited until its task gives up. *)
Definition none_then_throttled : world := fun i _ =>
  match i with
  | O => server_error
  | _ => throttled
  end.

(** The connection drops at every attempt. *)
Definition disconnected : task_world :=
  {| responses := always (PostRaises ServerDisconnectedError);
     jitter := no_jitter |}.

Definition labelled (label : string) : task_world :=
  {| responses := always (Response 200 (ok_body label));
     jitter := no_jitter |}.

(** A batch of two: the first file is labelled at once, the answer for the
    second has a malformed body. *)
Definition one_bad : world := fun i _ =>
  match i with
  | O => labelled "Screenshot_VSCode_Python"
  | _ => malformed_world
  end.

(** A batch of two: the first file is labelled, the second is rate limited
    until its task gives up. *)
Definition one_throttled : world := fun i _ =>
  match i with
  | O => labelled "Meme_Cat_Funny"
  | _ => throttled
  end.

(** ** Vocabulary of the statements *)

(** The value and the events of the task at position [i] for file [f]. *)
Definition task_outcome (w : world) (i : nat) (f : string) : outcome value :=
  fst (label_image_async (w i f) default_max_retries default_initial_delay).

Definition task_events (w : world) (i : nat) (f : string) : list event :=
  snd (label_image_async (w i f) default_max_retries default_initial_delay).

(** A 200 answer whose body cannot be read as a label: [response.json()]
    raises something else than a disconnection, or the path
    choices / 0 / message / content is not there. *)
Definition malformed (json : json_result) : bool :=
  match json with
  | Returned data =>
      match content_of data with
      | Returned _ => false
      | Raised _ => true
      end
  | Raised e => negb (is_server_disconnected e)
  end.

(** An HTTP status the loop has no branch for. *)
Definition unhandled_status (status : Z) : bool :=
  (negb (status =? 200) && negb (status =? 429))%Z.

Definition is_rate_limited (r : response) : bool :=
  match r with
  | Response status _ => (status =? 429)%Z
  | PostRaises _ => false
  end.

(** The two texts [label_image_async] returns when it gives up. *)
Definition failure_text (s : string) : Prop :=
  s = "Error: 429" \/ s = "Error: Server disconnected".

Definition is_str (v : value) : bool :=
  match v with
  | PStr _ => true
  | _ => false
  end.

(** Every label of the zipped list is a [str]. *)
Definition all_str (pairs : list (string * value)) : Prop :=
  Forall (fun p => is_str (snd p) = true) pairs.

(** The text before the first [sep], and the text after it; the whole text
    and the empty text when there is no [sep]. *)
Fixpoint before_first (sep : ascii) (s : string) : string :=
  match s with
  | EmptyString => EmptyString
  | String c rest =>
      if Ascii.eqb c sep then EmptyString else String c (before_first sep rest)
  end.

Fixpoint after_first (sep : ascii) (s : string) : string :=
  match s with
  | EmptyString => EmptyString
  | String c rest => if Ascii.eqb c sep then rest else after_first sep rest
  end.

(** One character made safe for a file name. *)
Definition sanitize_char (c : ascii) : ascii :=
  if existsb (Ascii.eqb c) invalid_chars then "_"%char else c.

Fixpoint map_string (f : ascii -> ascii) (s : string) : string :=
  match s with
  | EmptyString => EmptyString
  | String c rest => String (f c) (map_string f rest)
  end.

(** Filing [image] under the folder named [category] followed by an s, with
    the sanitized [remainder] and the extension of [image] as file name. *)
Definition filed_as (dst_path : string) (keep_originals : bool)
    (image category remainder : string) : list fs_action :=
  let folder_path := os_path_join dst_path (category ++ "s") in
  let name := map_string sanitize_char remainder ++ "." ++ extension image in
  ([Makedirs folder_path; Copy image (os_path_join folder_path "" ++ name)]
   ++ (if keep_originals then [] else [Remove image]))%list.

(** The sources of the [Copy] actions, in order. *)
Fixpoint copied (acts : list fs_action) : list string :=
  match acts with
  | [] => []
  | Copy src _ :: rest => src :: copied rest
  | _ :: rest => copied rest
  end.

(** ** [find_images], [validate_directory] and the script *)

Definition extensions : list string := ["png"; "jpg"; "jpeg"; "gif"; "webp"].

(** The f-string handed to [glob.glob]. *)
Definition pattern (directory ext : string) : string :=
  directory ++ "/**/*." ++ ext.

(** [glob] is what [glob.glob(pattern, recursive=True)] answers on the
    disk at hand; [files.extend] appends its answer. *)
Definition find_images (glob : string -> list string) (directory : string)
    : list string :=
  fold_left (fun files ext => (files ++ glob (pattern directory ext))%list)
    extensions [].






(** [s] ends with [suffix]. *)
Definition has_suffix (suffix s : string) : Prop :=
  exists stem, s = stem ++ suffix.

(** What [glob.glob] is relied on for: a path matching the pattern for an
    extension ends with a dot and that extension, and no path is listed
    twice for one pattern. *)
Definition glob_ends_with_extension (glob : string -> list string)
    (directory : string) : Prop :=
  forall ext path,
    In ext extensions -> In path (glob (pattern directory ext)) ->
    has_suffix (String "." ext) path.

Definition glob_lists_once (glob : string -> list string)
    (directory : string) : Prop :=
  forall ext, In ext extensions -> NoDup (glob (pattern directory ext)).

(** A disk with two PNG files and a JPEG file under /pics. *)
Definition sample_glob (p : string) : list string :=
  if String.eqb p "/pics/**/*.png" then ["/pics/a.png"; "/pics/old/b.png"]
  else if String.eqb p "/pics/**/*.jpg" then ["/pics/c.jpg"]
  else [].

(** The folder [move_one] creates for a label, and the path it copies the
    image to. *)
Definition folder_of (dst_path label : string) : string :=
  os_path_join dst_path (hd EmptyString (split "_" label) ++ "s").

Definition destination (dst_path image label : string) : string :=
  let folder_name := hd EmptyString (split "_" label) in
  os_path_join (folder_of dst_path label)
    (sanitize_label (slice_from (String.length folder_name + 1) label))
  ++ "." ++ extension image.

(** ** The loop on a file system that can fail *)

(** What a file-system call raises, if anything, after the calls that
    succeeded before it. *)
Definition file_system : Type := list fs_action -> fs_action -> option exn.

(** [shutil.copy] of a file onto itself always raises: [SameFileError]
    unless the file system has an error of its own for the call. Every other
    failure is up to the file system. *)
Definition call_raises (fs : file_system) (done : list fs_action)
    (a : fs_action) : option exn :=
  match a with
  | Copy src dst =>
      if String.eqb src dst then
        match fs done a with
        | Some e => Some e
        | None => Some (OtherError "SameFileError")
        end
      else fs done a
  | _ => fs done a
  end.

(** The calls [todo] made in turn after the calls [done]: those that
    succeeded, and the exception of the first that did not. *)
Fixpoint perform_calls (fs : file_system) (done todo : list fs_action)
    : list fs_action * option exn :=
  match todo with
  | [] => ([], None)
  | a :: rest =>
      match call_raises fs done a with
      | Some e => ([], Some e)
      | None =>
          let (acts, err) := perform_calls fs (done ++ [a]) rest in
          (a :: acts, err)
      end
  end.

(** The [for image, label in zip(image_files, labels)] loop: it stops at the
    first label that is not a [str] and at the first call that raises. *)
Fixpoint move_loop_on (fs : file_system) (dst_path : string)
    (keep_originals : bool) (done : list fs_action)
    (pairs : list (string * value)) : list fs_action * option exn :=
  match pairs with
  | [] => ([], None)
  | (image, PStr label) :: rest =>
      match perform_calls fs done
              (move_one dst_path keep_originals image label) with
      | (acts, Some e) => (acts, Some e)
      | (acts, None) =>
          let (acts', err) :=
            move_loop_on fs dst_path keep_originals (done ++ acts) rest in
          ((acts ++ acts')%list, err)
      end
  | (_, _) :: _ => ([], Some AttributeError)
  end.

(** [label_and_move_images] on the file system [fs]: the calls that
    succeeded, and how the run ends ([LoopRaised] also when creating the
    sorted folder fails). *)
Definition label_and_move_images_on (fs : file_system) (w : world)
    (image_files : list string) (answer : string) (src_path : string)
    (ask_to_proceed keep_originals : bool) : list fs_action * ending :=
  if (ask_to_proceed && negb (String.eqb (lower answer) "y"))%bool then
    ([], Declined)
  else
    match get_labels w image_files with
    | Aborted raising => ([], GatherRaised raising)
    | Labels labels =>
        let dst_path := os_path_join src_path "sorted" in
        match call_raises fs [] (Makedirs dst_path) with
        | Some e => ([], LoopRaised e)
        | None =>
            let (acts, err) :=
              move_loop_on fs dst_path keep_originals [Makedirs dst_path]
                (combine image_files labels) in
            (Makedirs dst_path :: acts,
             match err with Some e => LoopRaised e | None => Completed end)
        end
    end.

(** A file system none of whose calls fails by itself, and the one used in
    the examples. *)
Definition quiet (fs : file_system) : Prop := forall done a, fs done a = None.

Definition calm : file_system := fun _ _ => None.

(** The image already lies where its label sends it. *)
Definition in_place (dst_path : string) (p : string * value) : bool :=
  match snd p with
  | PStr label => String.eqb (fst p) (destination dst_path (fst p) label)
  | _ => false
  end.

Definition none_in_place (dst_path : string) (pairs : list (string * value))
    : Prop :=
  Forall (fun p => in_place dst_path p = false) pairs.

(** ** The disk under the file actions *)

(** The regular files of the disk: the content at each path. [shutil.copy]
    writes the content of [src] at [dst], over what was there; [os.remove]
    deletes; directories are not contents, so [os.makedirs] changes nothing
    here. Actions that fail on a real disk are outside this reading. *)
Definition disk : Type := string -> option string.

Definition perform (d : disk) (a : fs_action) : disk :=
  match a with
  | Makedirs _ => d
  | Copy src dst => fun p => if String.eqb p dst then d src else d p
  | Remove path => fun p => if String.eqb p path then None else d p
  end.

Definition perform_all (d : disk) (acts : list fs_action) : disk :=
  fold_left perform acts d.

(** ** Reading one answer *)

(** What one answer means to the loop: it settles the task, it calls for a
    backoff (with the text returned if this was the last iteration), or it
    is passed over. *)
Inductive verdict : Type :=
| Done (o : outcome value)
| Backoff (error_text : string)
| Skip.

Definition classify (r : response) : verdict :=
  match r with
  | Response status json =>
      if (status =? 200)%Z then
        match json with
        | Returned data => Done (content_of data)
        | Raised e =>
            if is_server_disconnected e
            then Backoff "Error: Server disconnected"
            else Done (Raised e)
        end
      else if (status =? 429)%Z then Backoff "Error: 429"
      else Skip
  | PostRaises e =>
      if is_server_disconnected e
      then Backoff "Error: Server disconnected"
      else Done (Raised e)
  end.

Definition is_done (v : verdict) : bool :=
  match v with
  | Done _ => true
  | _ => false
  end.

(** What the last iteration leaves when no answer settled the task. *)
Definition exhausted (v : verdict) : outcome value :=
  match v with
  | Backoff text => Returned (PStr text)
  | _ => Returned PNone
  end.

(** The answer raises [e] when it is read: the request raises, or reading
    the body of a 200 does, or the label is not where it should be. *)
Definition raises_at (r : response) (e : exn) : Prop :=
  r = PostRaises e \/
  r = Response 200 (Raised e) \/
  exists data, r = Response 200 (Returned data) /\ content_of data = Raised e.

(** The attempts of the [Post] events, the paths of the [Remove] and
    [Makedirs] actions, the sum of the delays slept on. *)
Fixpoint posted (evs : list event) : list nat :=
  match evs with
  | [] => []
  | Post attempt :: rest => attempt :: posted rest
  | Sleep _ _ :: rest => posted rest
  end.

Fixpoint removed (acts : list fs_action) : list string :=
  match acts with
  | [] => []
  | Remove path :: rest => path :: removed rest
  | _ :: rest => removed rest
  end.

Fixpoint total_delay (naps : list (Q * Q)) : Q :=
  match naps with
  | [] => 0
  | (d, _) :: rest => d + total_delay rest
  end.

(** The longest prefix of [str] labels of the zipped list. *)
Fixpoint str_prefix (pairs : list (string * value)) : list (string * value) :=
  match pairs with
  | (image, PStr label) :: rest => (image, PStr label) :: str_prefix rest
  | _ => []
  end.

(** The requests of a whole batch. *)
Fixpoint total_posts (runs : list (outcome value * list event)) : nat :=
  match runs with
  | [] => 0
  | run :: rest => posts (snd run) + total_posts rest
  end.

(** * Properties *)

(** ** Strings *)

Section Strings.

Local Ltac each_char c := destruct c as [[] [] [] [] [] [] [] []].

Lemma sanitize_label_cons (c : ascii) (s : string) :
  sanitize_label (String c s) = String (sanitize_char c) (sanitize_label s).
Proof.
  unfold sanitize_label, invalid_chars. cbn [fold_left replace].
  f_equal. each_char c; reflexivity.
Qed.

(** [sanitize_label] works character by character. *)
Lemma sanitize_label_map (s : string) :
  sanitize_label s = map_string sanitize_char s.
Proof.
  induction s as [|c s IH]; [reflexivity|].
  rewrite sanitize_label_cons, IH. reflexivity.
Qed.

Lemma sanitize_char_safe (c : ascii) :
  existsb (Ascii.eqb (sanitize_char c)) invalid_chars = false.
Proof. each_char c; reflexivity. Qed.

Lemma sanitize_char_idem (c : ascii) :
  sanitize_char (sanitize_char c) = sanitize_char c.
Proof. each_char c; reflexivity. Qed.

Lemma contains_sanitized (c : ascii) (s : string) :
  In c invalid_chars -> contains c (map_string sanitize_char s) = false.
Proof.
  intros Hc. induction s as [|x s IH]; [reflexivity|].
  cbn [map_string contains]. rewrite IH, orb_false_r.
  destruct (Ascii.eqb (sanitize_char x) c) eqn:E; [|reflexivity].
  apply Ascii.eqb_eq in E. subst c.
  pose proof (sanitize_char_safe x) as Hs.
  assert (existsb (Ascii.eqb (sanitize_char x)) invalid_chars = true) as Ht.
  { apply existsb_exists. exists (sanitize_char x).
    split; [exact Hc | apply Ascii.eqb_refl]. }
  congruence.
Qed.

Lemma split_nonempty (sep : ascii) (s : string) : split sep s <> [].
Proof.
  destruct s as [|c s]; cbn [split]; [discriminate|].
  destruct (Ascii.eqb c sep); [discriminate|].
  destruct (split sep s); discriminate.
Qed.

(** [label.split(sep)[0]] is the text before the first [sep]. *)
Lemma split_hd (sep : ascii) (s : string) :
  hd EmptyString (split sep s) = before_first sep s.
Proof.
  induction s as [|c s IH]; [reflexivity|].
  cbn [split before_first].
  destruct (Ascii.eqb c sep); [reflexivity|].
  destruct (split sep s) as [|p ps] eqn:E.
  - exfalso. exact (split_nonempty sep s E).
  - cbn [hd] in *. congruence.
Qed.

(** [label[len(folder_name)+1:]] is the text after the first [sep]. *)
Lemma slice_after (sep : ascii) (s : string) :
  slice_from (String.length (before_first sep s) + 1) s = after_first sep s.
Proof.
  induction s as [|c s IH]; [reflexivity|].
  cbn [before_first after_first].
  destruct (Ascii.eqb c sep); [reflexivity|].
  cbn [String.length Nat.add slice_from]. exact IH.
Qed.

Lemma before_first_app (sep : ascii) (a b : string) :
  contains sep a = false ->
  before_first sep (a ++ String sep b) = a /\
  after_first sep (a ++ String sep b) = b.
Proof.
  induction a as [|c a IH]; cbn [contains append before_first after_first].
  - intros _. rewrite Ascii.eqb_refl. split; reflexivity.
  - intros H. apply orb_false_elim in H as [Hc Ha].
    rewrite Hc. destruct (IH Ha) as [-> ->]. split; reflexivity.
Qed.

Lemma before_first_none (sep : ascii) (s : string) :
  contains sep s = false ->
  before_first sep s = s /\ after_first sep s = EmptyString.
Proof.
  induction s as [|c s IH]; cbn [contains before_first after_first].
  - intros _. split; reflexivity.
  - intros H. apply orb_false_elim in H as [Hc Ha].
    rewrite Hc. destruct (IH Ha) as [-> ->]. split; reflexivity.
Qed.

End Strings.

(** C10. For every string [s], [sanitize_label s] contains none of the
    eight characters slash, colon, star, question mark, double quote (written
    ["034"]), less-than, greater-than and bar, and sanitizing twice is
    sanitizing once. *)
Theorem sanitize_label_safe_idempotent (s : string) :
  Forall (fun c => contains c (sanitize_label s) = false)
    ["/"; ":"; "*"; "?"; "034"; "<"; ">"; "|"]%char /\
  sanitize_label (sanitize_label s) = sanitize_label s.
Proof.
  split.
  - apply Forall_forall. intros c Hc.
    rewrite sanitize_label_map. apply contains_sanitized, Hc.
  - rewrite !sanitize_label_map.
    induction s as [|c s IH]; [reflexivity|].
    cbn [map_string]. rewrite sanitize_char_idem, IH. reflexivity.
Qed.

(** ** The file-move step *)

Section Filing.

Lemma split_app_two (sep : ascii) (a b : string) :
  exists p q qs, split sep (a ++ String sep b) = p :: q :: qs.
Proof.
  induction a as [|c a IH]; cbn [append split].
  - rewrite Ascii.eqb_refl.
    destruct (split sep b) as [|q qs] eqn:E.
    + exfalso. exact (split_nonempty sep b E).
    + exists EmptyString, q, qs. reflexivity.
  - destruct IH as (p & q & qs & ->).
    destruct (Ascii.eqb c sep); eauto.
Qed.

Lemma last_split_app (sep : ascii) (a b d : string) :
  last (split sep (a ++ String sep b)) d = last (split sep b) d.
Proof.
  induction a as [|c a IH]; cbn [append split].
  - rewrite Ascii.eqb_refl.
    destruct (split sep b) as [|q qs] eqn:E; [|reflexivity].
    exfalso. exact (split_nonempty sep b E).
  - destruct (split_app_two sep a b) as (p & q & qs & E).
    rewrite E in *. destruct (Ascii.eqb c sep); exact IH.
Qed.

Lemma split_none (sep : ascii) (s : string) :
  contains sep s = false -> split sep s = [s].
Proof.
  induction s as [|c s IH]; cbn [contains split]; [reflexivity|].
  intros H. apply orb_false_elim in H as [Hc Hs].
  rewrite Hc, (IH Hs). reflexivity.
Qed.

(** [image.split(".")[-1]] is the text after the last dot. *)
Lemma extension_after_last_dot (stem ext : string) :
  contains "." ext = false -> extension (stem ++ String "." ext) = ext.
Proof.
  intros H. unfold extension.
  rewrite last_split_app, (split_none _ _ H). reflexivity.
Qed.

(** Joining with the empty name only adds the separator, so the name can be
    appended afterwards. *)
Lemma os_path_join_name (folder name : string) :
  startswith name "/" = false ->
  os_path_join folder name = os_path_join folder "" ++ name.
Proof.
  intros H. unfold os_path_join. rewrite H. cbn [startswith].
  destruct (String.eqb folder EmptyString || endswith folder "/")%bool.
  - induction folder as [|c f IH]; cbn [append]; [reflexivity|].
    f_equal. exact IH.
  - induction folder as [|c f IH]; cbn [append]; [reflexivity|].
    f_equal. exact IH.
Qed.

Lemma sanitized_not_absolute (s : string) :
  startswith (sanitize_label s) "/" = false.
Proof.
  destruct s as [|c s]; [reflexivity|].
  rewrite sanitize_label_cons. cbn [startswith].
  pose proof (sanitize_char_safe c) as H. cbn [existsb invalid_chars] in H.
  apply orb_false_elim in H as [H _]. exact H.
Qed.

Lemma append_assoc (a b c : string) : (a ++ b) ++ c = a ++ (b ++ c).
Proof.
  induction a as [|x a IH]; cbn [append]; [reflexivity|]. f_equal. exact IH.
Qed.

(** What one iteration of the loop does, in the words of the label. *)
Lemma move_one_filed (dst_path : string) (keep_originals : bool)
    (image label : string) :
  move_one dst_path keep_originals image label
  = filed_as dst_path keep_originals image
      (before_first "_" label) (after_first "_" label).
Proof.
  unfold move_one, filed_as.
  rewrite split_hd, slice_after.
  rewrite (os_path_join_name _ _ (sanitized_not_absolute _)).
  rewrite sanitize_label_map, append_assoc. reflexivity.
Qed.

End Filing.

(** C8. For every raw label, one iteration of the file-move loop files the
    image under the folder named by the text before the first underscore
    followed by an s, under the file name made of the text after that
    underscore with every character of [invalid_chars] replaced by an
    underscore, a dot and the extension of the source file (the text after
    its last dot). A label without underscore is its own category and
    leaves the name empty. *)
Theorem move_one_uses_category_and_remainder
    (dst_path : string) (keep_originals : bool) (image label : string) :
  (forall category remainder,
      label = category ++ String "_" remainder ->
      contains "_" category = false ->
      move_one dst_path keep_originals image label
      = filed_as dst_path keep_originals image category remainder) /\
  (contains "_" label = false ->
   move_one dst_path keep_originals image label
   = filed_as dst_path keep_originals image label EmptyString) /\
  (forall stem ext,
      image = stem ++ String "." ext -> contains "." ext = false ->
      extension image = ext).
Proof.
  split; [|split].
  - intros category remainder -> H.
    rewrite move_one_filed.
    destruct (before_first_app "_" category remainder H) as [-> ->].
    reflexivity.
  - intros H. rewrite move_one_filed.
    destruct (before_first_none "_" label H) as [-> ->]. reflexivity.
  - intros stem ext -> H. apply extension_after_last_dot, H.
Qed.

Lemma move_one_uses_category_and_remainder_witness :
  move_one "/pics/sorted" false "/pics/shot.1.png"
    "Screenshot_Visual Studio Code_Python: image/classification"
  = [Makedirs "/pics/sorted/Screenshots";
     Copy "/pics/shot.1.png"
       "/pics/sorted/Screenshots/Visual Studio Code_Python_ image_classification.png";
     Remove "/pics/shot.1.png"].
Proof.
  destruct (move_one_uses_category_and_remainder "/pics/sorted" false
              "/pics/shot.1.png"
              "Screenshot_Visual Studio Code_Python: image/classification")
    as [H _].
  rewrite (H "Screenshot" "Visual Studio Code_Python: image/classification");
    reflexivity.
Defined.

(** ** The retry loop *)

Section RetryLoop.

Variable w : task_world.
Variable max_retries : Z.

(** The three ways one iteration can go: it ends the task, it goes on to
    the next attempt at once, or it sleeps, doubles [delay] and goes on. *)
Lemma attempts_step (n attempt : nat) (delay : Q) (draws : nat) :
  (exists o, attempts w max_retries (S n) attempt delay draws
             = (o, [Post attempt])) \/
  (let next := attempts w max_retries n (S attempt) delay draws in
   attempts w max_retries (S n) attempt delay draws
   = (fst next, Post attempt :: snd next)) \/
  (let next := attempts w max_retries n (S attempt) (delay * 2) (S draws) in
   attempts w max_retries (S n) attempt delay draws
   = (fst next, Post attempt :: Sleep delay (jitter w draws) :: snd next)).
Proof.
  cbn [attempts].
  repeat match goal with
         | |- context [match ?x with _ => _ end] => destruct x
         end;
    cbn [fst snd]; eauto.
Qed.


(** A run never makes more requests than there are iterations. *)
Lemma attempts_posts (n : nat) :
  forall attempt delay draws,
    (posts (snd (attempts w max_retries n attempt delay draws)) <= n)%nat.
Proof.
  induction n as [|n IH]; intros attempt delay draws; [apply Nat.le_refl|].
  destruct (attempts_step n attempt delay draws) as [[o E]|[E|E]];
    cbv zeta in E; rewrite E; cbn [snd posts].
  - lia.
  - specialize (IH (S attempt) delay draws). lia.
  - specialize (IH (S attempt) (delay * 2) (S draws)). lia.
Qed.

(** *** One iteration, by kind of answer *)

Lemma attempts_rate_limited (n attempt : nat) (delay : Q) (draws : nat) :
  is_rate_limited (responses w attempt) = true ->
  attempts w max_retries (S n) attempt delay draws
  = if (Z.of_nat attempt <? max_retries - 1)%Z then
      let next := attempts w max_retries n (S attempt) (delay * 2) (S draws) in
      (fst next, Post attempt :: Sleep delay (jitter w draws) :: snd next)
    else (Returned (PStr "Error: 429"), [Post attempt]).
Proof.
  intros H. cbn [attempts].
  destruct (responses w attempt) as [status json|e]; [|discriminate H].
  cbn [is_rate_limited] in H. apply Z.eqb_eq in H. subst status.
  change (429 =? 200)%Z with false. change (429 =? 429)%Z with true.
  cbv iota zeta.
  destruct (Z.of_nat attempt <? max_retries - 1)%Z; [|reflexivity].
  destruct (attempts w max_retries n (S attempt) (delay * 2) (S draws)).
  reflexivity.
Qed.

Lemma attempts_unhandled (n attempt : nat) (delay : Q) (draws : nat)
    (status : Z) (json : json_result) :
  responses w attempt = Response status json ->
  unhandled_status status = true ->
  attempts w max_retries (S n) attempt delay draws
  = (fst (attempts w max_retries n (S attempt) delay draws),
     Post attempt :: snd (attempts w max_retries n (S attempt) delay draws)).
Proof.
  intros E H. cbn [attempts]. rewrite E.
  unfold unhandled_status in H. apply andb_prop in H as [H2 H4].
  apply negb_true_iff in H2, H4. rewrite H2, H4.
  destruct (attempts w max_retries n (S attempt) delay draws). reflexivity.
Qed.

(** Indexing never raises the one exception the loop catches. *)
Lemma content_of_raises (data : value) (e : exn) :
  content_of data = Raised e -> is_server_disconnected e = false.
Proof.
  unfold content_of, bind, getitem_str, getitem_0. intros H.
  repeat match type of H with
         | context [match ?x with _ => _ end] =>
             first [is_var x | match x with lookup _ _ => idtac end];
             destruct x; cbv beta iota in H
         end;
    inversion H; reflexivity.
Qed.

Lemma attempts_malformed (n attempt : nat) (delay : Q) (draws : nat)
    (json : json_result) :
  responses w attempt = Response 200 json ->
  malformed json = true ->
  exists e,
    attempts w max_retries (S n) attempt delay draws
    = (Raised e, [Post attempt]).
Proof.
  intros E H. cbn [attempts]. rewrite E.
  change (200 =? 200)%Z with true. cbv iota.
  unfold malformed in H. destruct json as [data|e].
  - destruct (content_of data) as [v|e] eqn:Ec; [discriminate H|].
    rewrite (content_of_raises _ _ Ec). eauto.
  - apply negb_true_iff in H. rewrite H. eauto.
Qed.

(** *** Whole runs *)

(** Rate limited at every attempt of the range: the last iteration gives
    up with the error text, after a sleep between any two attempts. *)
Lemma rate_limited_attempts (n : nat) :
  forall attempt delay draws,
    Z.of_nat (attempt + S n) = max_retries ->
    (forall j, (attempt <= j < attempt + S n)%nat ->
               is_rate_limited (responses w j) = true) ->
    let run := attempts w max_retries (S n) attempt delay draws in
    fst run = Returned (PStr "Error: 429") /\
    posts (snd run) = S n /\
    List.length (sleeps (snd run)) = n.
Proof.
  induction n as [|n IH]; intros attempt delay draws HM Hrl run; subst run;
    rewrite attempts_rate_limited by (apply Hrl; lia).
  - destruct (Z.ltb_spec (Z.of_nat attempt) (max_retries - 1)); [lia|].
    repeat split.
  - destruct (Z.ltb_spec (Z.of_nat attempt) (max_retries - 1)); [|lia].
    cbv zeta. cbn [fst snd posts sleeps List.length].
    destruct (IH (S attempt) (delay * 2) (S draws)) as (Hr & Hp & Hs).
    + lia.
    + intros j Hj. apply Hrl. lia.
    + rewrite Hr, Hp, Hs. repeat split.
Qed.

(** An unhandled status at every attempt of the range: every iteration is
    used, none sleeps, and the function falls off its end. *)
Lemma unhandled_attempts (n : nat) :
  forall attempt delay draws,
    (forall j, (attempt <= j < attempt + n)%nat ->
               exists status json,
                 responses w j = Response status json /\
                 unhandled_status status = true) ->
    attempts w max_retries n attempt delay draws
    = (Returned PNone, map Post (seq attempt n)).
Proof.
  induction n as [|n IH]; intros attempt delay draws H; [reflexivity|].
  destruct (H attempt) as (status & json & E & Hs); [lia|].
  rewrite (attempts_unhandled _ _ _ _ _ _ E Hs), IH; [reflexivity|].
  intros j Hj. apply H. lia.
Qed.

End RetryLoop.

(** C3 (amended). For every [max_retries] of at least 1 and every item that
    is rate limited at each of its first [max_retries] attempts, whatever
    would be answered afterwards, the task makes exactly [max_retries]
    requests, sleeps between them and not after the last, and returns the
    text "Error: 429". *)
Theorem rate_limit_exhaustion (w : task_world) (max_retries : Z) (d : Q) :
  (1 <= max_retries)%Z ->
  (forall j, (Z.of_nat j < max_retries)%Z ->
             is_rate_limited (responses w j) = true) ->
  fst (label_image_async w max_retries d) = Returned (PStr "Error: 429") /\
  posts (snd (label_image_async w max_retries d)) = Z.to_nat max_retries /\
  List.length (sleeps (snd (label_image_async w max_retries d)))
  = (Z.to_nat max_retries - 1)%nat.
Proof.
  intros HM Hrl. unfold label_image_async.
  destruct (Z.to_nat max_retries) as [|n] eqn:En; [lia|].
  destruct (rate_limited_attempts w max_retries n 0 d 0) as (Hr & Hp & Hs).
  - lia.
  - intros j Hj. apply Hrl. lia.
  - rewrite Hr, Hp, Hs. repeat split. lia.
Qed.

Lemma rate_limit_exhaustion_witness :
  fst (label_image_async late_success 5 1) = Returned (PStr "Error: 429") /\
  posts (snd (label_image_async late_success 5 1)) = 5%nat /\
  List.length (sleeps (snd (label_image_async late_success 5 1))) = 4%nat.
Proof.
  apply (rate_limit_exhaustion late_success 5 1); [lia|].
  intros j Hj.
  do 5 (destruct j as [|j]; [reflexivity|]). lia.
Defined.

(** C3, as stated, fails: five rate-limited attempts end in the text
    "Error: 429", not in "max retries exceeded". *)
Lemma rate_limit_text_counterexample :
  (forall j, (j < 5)%nat -> is_rate_limited (responses late_success j) = true) /\
  fst (label_image_async late_success default_max_retries
         default_initial_delay)
  <> Returned (PStr "max retries exceeded").
Proof.
  split.
  - intros j Hj. do 5 (destruct j as [|j]; [reflexivity|]). lia.
  - vm_compute. discriminate.
Qed.

(** C2 (amended). For every item whose first answer is a 200 with a
    malformed body, the task makes exactly one request, never sleeps or
    retries, and ends by raising the exception: no value is returned. *)
Theorem malformed_body_raises_at_once
    (w : task_world) (max_retries : Z) (d : Q) (json : json_result) :
  (1 <= max_retries)%Z ->
  responses w 0 = Response 200 json ->
  malformed json = true ->
  exists e, label_image_async w max_retries d = (Raised e, [Post 0]).
Proof.
  intros HM E H. unfold label_image_async.
  destruct (Z.to_nat max_retries) as [|n] eqn:En; [lia|].
  exact (attempts_malformed w max_retries n 0 d 0 json E H).
Qed.

Lemma malformed_body_raises_at_once_witness :
  exists e, label_image_async malformed_world 5 1 = (Raised e, [Post 0]).
Proof.
  apply (malformed_body_raises_at_once malformed_world 5 1
           (Returned (PDict []))); [lia | reflexivity | reflexivity].
Defined.

(** C2, as stated, fails: a first answer with a malformed body gives no
    outcome value at all, the task raises [KeyError]. *)
Lemma malformed_body_counterexample :
  (exists json, responses malformed_world 0 = Response 200 json /\
                malformed json = true) /\
  ~ (exists v, fst (label_image_async malformed_world default_max_retries
                      default_initial_delay) = Returned v).
Proof.
  split.
  - exists (Returned (PDict [])). split; reflexivity.
  - intros [v H]. vm_compute in H. discriminate H.
Qed.

(** C9. Some sequence of answers, each with a status that is neither 200
    nor 429 and none raising, makes [label_image_async] use up its five
    iterations and return [None]: neither a label nor an error text. *)
Theorem unhandled_status_returns_none :
  exists w : task_world,
    (forall k, exists status v,
        responses w k = Response status (Returned v) /\
        unhandled_status status = true) /\
    label_image_async w default_max_retries default_initial_delay
    = (Returned PNone, [Post 0; Post 1; Post 2; Post 3; Post 4]) /\
    (forall s, fst (label_image_async w default_max_retries
                      default_initial_delay) <> Returned (PStr s)).
Proof.
  assert (label_image_async server_error default_max_retries
            default_initial_delay
          = (Returned PNone, [Post 0; Post 1; Post 2; Post 3; Post 4])) as E.
  { unfold label_image_async.
    rewrite unhandled_attempts; [reflexivity|].
    intros j _. exists 500%Z, (Returned PNone). split; reflexivity. }
  exists server_error. split; [|split].
  - intros k. exists 500%Z, PNone. split; reflexivity.
  - exact E.
  - intros s. rewrite E. discriminate.
Qed.

(** C4. On the scenario of the specification the third label is [None],
    not a failure text: A makes one request, B three, and C all five; the
    file-move loop then stops on C with [AttributeError]. *)
Theorem scenario_run :
  get_labels scenario scenario_files
  = Labels [PStr "Screenshot_VSCode_Python"; PStr "Meme_Cat_Funny"; PNone] /\
  posts (task_events scenario 0 "a.png") = 1%nat /\
  posts (task_events scenario 1 "b.png") = 3%nat /\
  posts (task_events scenario 2 "c.png") = 5%nat /\
  snd (label_and_move_images scenario scenario_files "y" "/pics" true false)
  = LoopRaised AttributeError.
Proof. repeat split. Qed.

(** ** The batch *)

Section Batch.

Variable w : world.

Lemma run_tasks_length (image_files : list string) :
  forall i0, List.length (run_tasks w i0 image_files) = List.length image_files.
Proof.
  induction image_files as [|f fs IH]; intros i0; cbn [run_tasks List.length];
    [reflexivity|]. rewrite IH. reflexivity.
Qed.

(** The task at position [i] is the one started for the file at position
    [i]. *)
Lemma run_tasks_nth (image_files : list string) :
  forall i0 i f,
    nth_error image_files i = Some f ->
    nth_error (map fst (run_tasks w i0 image_files)) i
    = Some (task_outcome w (i0 + i) f).
Proof.
  induction image_files as [|f0 fs IH]; intros i0 i f H.
  - destruct i; discriminate H.
  - destruct i as [|i]; cbn [nth_error run_tasks map] in *.
    + injection H as ->. rewrite Nat.add_0_r. reflexivity.
    + rewrite (IH (S i0) i f H). f_equal. f_equal. lia.
Qed.

(** [gather] hands back the values in the order of the tasks when none
    raises. *)
Lemma gather_returned (results : list (outcome value)) :
  forall i, snd (gather i results) = [] ->
            results = map Returned (fst (gather i results)).
Proof.
  induction results as [|r rs IH]; intros i H; [reflexivity|].
  cbn [gather] in *. specialize (IH (S i)).
  destruct (gather (S i) rs) as [vs es].
  destruct r as [v|e]; cbn [fst snd map] in *.
  - rewrite <- IH by exact H. reflexivity.
  - discriminate H.
Qed.

Lemma gather_all_returned (results : list (outcome value)) :
  forall i, (forall r, In r results -> exists v, r = Returned v) ->
            snd (gather i results) = [].
Proof.
  induction results as [|r rs IH]; intros i H; [reflexivity|].
  cbn [gather]. specialize (IH (S i) (fun r' Hr => H r' (or_intror Hr))).
  destruct (gather (S i) rs) as [vs es].
  destruct (H r (or_introl eq_refl)) as [v ->]. exact IH.
Qed.

Lemma get_labels_Labels (image_files : list string) (labels : list value) :
  get_labels w image_files = Labels labels ->
  map fst (run_tasks w 0 image_files) = map Returned labels.
Proof.
  unfold get_labels. intros H.
  pose proof (gather_returned (map fst (run_tasks w 0 image_files)) 0) as G.
  destruct (gather 0 (map fst (run_tasks w 0 image_files))) as [vs [|e es]];
    [|discriminate H].
  injection H as <-. apply G. reflexivity.
Qed.

Lemma get_labels_returns (image_files : list string) :
  (forall i f, nth_error image_files i = Some f ->
               exists v, task_outcome w i f = Returned v) ->
  exists labels, get_labels w image_files = Labels labels.
Proof.
  intros H. unfold get_labels.
  pose proof (gather_all_returned (map fst (run_tasks w 0 image_files)) 0) as G.
  destruct (gather 0 (map fst (run_tasks w 0 image_files))) as [vs es].
  cbn [snd] in G. rewrite G; [eauto|].
  intros r Hr. apply In_nth_error in Hr. destruct Hr as [i Hi].
  destruct (nth_error image_files i) as [f|] eqn:Ef.
  - rewrite (run_tasks_nth _ 0 i f Ef) in Hi. injection Hi as <-.
    exact (H i f Ef).
  - apply nth_error_None in Ef.
    assert (nth_error (map fst (run_tasks w 0 image_files)) i = None) as Hn.
    { apply nth_error_None. rewrite length_map, run_tasks_length. exact Ef. }
    congruence.
Qed.

(** The label at position [i] of a returned list is the value of task [i]. *)
Lemma get_labels_nth (image_files : list string) (labels : list value) :
  get_labels w image_files = Labels labels ->
  List.length labels = List.length image_files /\
  forall i f, nth_error image_files i = Some f ->
              exists v, nth_error labels i = Some v /\
                        task_outcome w i f = Returned v.
Proof.
  intros H. apply get_labels_Labels in H. split.
  - rewrite <- (length_map Returned labels), <- H, length_map.
    apply run_tasks_length.
  - intros i f Hf.
    pose proof (run_tasks_nth _ 0 i f Hf) as Hi.
    rewrite H, nth_error_map in Hi.
    destruct (nth_error labels i) as [v|]; [|discriminate Hi].
    cbn [option_map] in Hi. injection Hi as Hi. eauto.
Qed.

End Batch.

Section MoveLoop.

Variable dst_path : string.
Variable keep_originals : bool.

Lemma copied_app (a b : list fs_action) :
  copied (a ++ b) = (copied a ++ copied b)%list.
Proof.
  induction a as [|x a IH]; [reflexivity|].
  destruct x; cbn [app copied]; rewrite IH; reflexivity.
Qed.

Lemma copied_move_one (image label : string) :
  copied (move_one dst_path keep_originals image label) = [image].
Proof. unfold move_one. destruct keep_originals; reflexivity. Qed.

(** Over [str] labels the loop reaches its end and copies every file, in
    order. *)
Lemma move_loop_all_str (pairs : list (string * value)) :
  all_str pairs ->
  snd (move_loop dst_path keep_originals pairs) = None /\
  copied (fst (move_loop dst_path keep_originals pairs)) = map fst pairs.
Proof.
  induction 1 as [|[image label] rest Hs _ IH]; [split; reflexivity|].
  destruct label; try discriminate Hs. cbn [move_loop].
  destruct (move_loop dst_path keep_originals rest) as [acts err].
  cbn [fst snd map] in *. destruct IH as [-> IH]. split; [reflexivity|].
  rewrite copied_app, copied_move_one, IH. reflexivity.
Qed.

(** The items after a prefix of [str] labels are processed after it. *)
Lemma move_loop_app (pre rest : list (string * value)) :
  all_str pre ->
  move_loop dst_path keep_originals (pre ++ rest)
  = ((fst (move_loop dst_path keep_originals pre)
      ++ fst (move_loop dst_path keep_originals rest))%list,
     snd (move_loop dst_path keep_originals rest)).
Proof.
  induction 1 as [|[image label] pre Hs _ IH].
  - cbn [app move_loop fst].
    destruct (move_loop dst_path keep_originals rest). reflexivity.
  - destruct label; try discriminate Hs. cbn [app move_loop]. rewrite IH.
    destruct (move_loop dst_path keep_originals pre) as [acts err].
    cbn [fst snd]. rewrite app_assoc. reflexivity.
Qed.

End MoveLoop.

(** C1 (amended). For every list of image files for which no task raises,
    [get_labels] returns a list of the same length whose element at each
    position is the value returned by the task started for the file at that
    position. *)
Theorem get_labels_positional (w : world) (image_files : list string) :
  (forall i f, nth_error image_files i = Some f ->
               exists v, task_outcome w i f = Returned v) ->
  exists labels,
    get_labels w image_files = Labels labels /\
    List.length labels = List.length image_files /\
    forall i f, nth_error image_files i = Some f ->
                exists v, nth_error labels i = Some v /\
                          task_outcome w i f = Returned v.
Proof.
  intros H. destruct (get_labels_returns w image_files H) as [labels E].
  exists labels. split; [exact E|]. exact (get_labels_nth w _ _ E).
Qed.

Lemma get_labels_positional_witness :
  exists labels,
    get_labels scenario scenario_files = Labels labels /\
    List.length labels = List.length scenario_files /\
    forall i f, nth_error scenario_files i = Some f ->
                exists v, nth_error labels i = Some v /\
                          task_outcome scenario i f = Returned v.
Proof.
  apply (get_labels_positional scenario scenario_files).
  intros i f H.
  do 3 (destruct i as [|i]; [injection H as <-; eexists; reflexivity|]).
  destruct i; discriminate H.
Defined.

(** C1, as stated, fails: for a one-file list whose answer has a malformed
    body [get_labels] returns no list, it raises the task's [KeyError]. *)
Lemma get_labels_raises_counterexample :
  get_labels (fun _ _ => malformed_world) ["a.png"]
  = Aborted [(0%nat, KeyError "choices")] /\
  ~ (exists labels,
        get_labels (fun _ _ => malformed_world) ["a.png"] = Labels labels /\
        List.length labels = List.length ["a.png"]).
Proof.
  split; [reflexivity|].
  intros (labels & H & _). vm_compute in H. discriminate H.
Qed.


(** ** Further runs, for the record *)

(** A dropped connection at every attempt ends in the other failure text. *)
Example disconnected_run :
  label_image_async disconnected default_max_retries default_initial_delay
  = (Returned (PStr "Error: Server disconnected"),
     [Post 0; Sleep 1 0; Post 1; Sleep (1 * 2) 0; Post 2;
      Sleep (1 * 2 * 2) 0; Post 3; Sleep (1 * 2 * 2 * 2) 0; Post 4]).
Proof. reflexivity. Qed.

(** A 500 is not final: the next iteration asks again, without sleeping,
    and a later 200 is returned as the label. *)
Example server_error_then_label :
  label_image_async
    {| responses := script [Response 500 (Returned PNone)]
                      (Response 200 (ok_body "Meme_Cat_Funny"));
       jitter := no_jitter |}
    default_max_retries default_initial_delay
  = (Returned (PStr "Meme_Cat_Funny"), [Post 0; Post 1]).
Proof. reflexivity. Qed.

(** With an empty range nothing is asked and [None] is returned. *)
Example no_attempts :
  label_image_async throttled 0 default_initial_delay = (Returned PNone, []).
Proof. reflexivity. Qed.

(** * Further properties of the code *)

(** ** The retry loop, answer by answer *)

Section RetryPolicy.

Variable w : task_world.
Variable max_retries : Z.

(** One iteration, in terms of what its answer means. *)
Lemma attempts_classify (n attempt : nat) (delay : Q) (draws : nat) :
  attempts w max_retries (S n) attempt delay draws
  = match classify (responses w attempt) with
    | Done o => (o, [Post attempt])
    | Backoff text =>
        if (Z.of_nat attempt <? max_retries - 1)%Z then
          (fst (attempts w max_retries n (S attempt) (delay * 2) (S draws)),
           Post attempt :: Sleep delay (jitter w draws)
           :: snd (attempts w max_retries n (S attempt) (delay * 2) (S draws)))
        else (Returned (PStr text), [Post attempt])
    | Skip =>
        (fst (attempts w max_retries n (S attempt) delay draws),
         Post attempt :: snd (attempts w max_retries n (S attempt) delay draws))
    end.
Proof.
  cbn [attempts]. unfold classify.
  destruct (responses w attempt) as [status json|e].
  - destruct (status =? 200)%Z.
    + destruct json as [data|e].
      * destruct (content_of data) as [v|e] eqn:Ec; [reflexivity|].
        rewrite (content_of_raises _ _ Ec). reflexivity.
      * destruct (is_server_disconnected e); [|reflexivity].
        destruct (Z.of_nat attempt <? max_retries - 1)%Z; [|reflexivity].
        destruct (attempts w max_retries n (S attempt) (delay * 2) (S draws)).
        reflexivity.
    + destruct (status =? 429)%Z eqn:E4.
      * apply Z.eqb_eq in E4. subst status.
        destruct (Z.of_nat attempt <? max_retries - 1)%Z; [|reflexivity].
        destruct (attempts w max_retries n (S attempt) (delay * 2) (S draws)).
        reflexivity.
      * destruct (attempts w max_retries n (S attempt) delay draws).
        reflexivity.
  - destruct (is_server_disconnected e); [|reflexivity].
    destruct (Z.of_nat attempt <? max_retries - 1)%Z; [|reflexivity].
    destruct (attempts w max_retries n (S attempt) (delay * 2) (S draws)).
    reflexivity.
Qed.

(** The first settling answer within the range ends the run. *)
Lemma attempts_first_done (m : nat) :
  forall n attempt delay draws o,
    (m < n)%nat ->
    (Z.of_nat (attempt + m) < max_retries)%Z ->
    (forall j, (attempt <= j < attempt + m)%nat ->
               is_done (classify (responses w j)) = false) ->
    classify (responses w (attempt + m)) = Done o ->
    fst (attempts w max_retries n attempt delay draws) = o /\
    posted (snd (attempts w max_retries n attempt delay draws))
    = seq attempt (S m).
Proof.
  induction m as [|m IH]; intros n attempt delay draws o Hn HM Hnot Hdone;
    (destruct n as [|n]; [lia|]); rewrite attempts_classify.
  - rewrite Nat.add_0_r in Hdone. rewrite Hdone. split; reflexivity.
  - pose proof (Hnot attempt ltac:(lia)) as Ha.
    assert (forall d c,
               fst (attempts w max_retries n (S attempt) d c) = o /\
               posted (snd (attempts w max_retries n (S attempt) d c))
               = seq (S attempt) (S m)) as Hnext.
    { intros d c. apply IH.
      - lia.
      - replace (S attempt + m)%nat with (attempt + S m)%nat by lia. exact HM.
      - intros j Hj. apply Hnot. lia.
      - replace (S attempt + m)%nat with (attempt + S m)%nat by lia.
        exact Hdone. }
    destruct (classify (responses w attempt)) as [o'|text|];
      [discriminate Ha| |].
    + destruct (Z.ltb_spec (Z.of_nat attempt) (max_retries - 1)); [|lia].
      cbn [fst snd posted]. destruct (Hnext (delay * 2) (S draws)) as [-> ->].
      split; reflexivity.
    + cbn [fst snd posted]. destruct (Hnext delay draws) as [-> ->].
      split; reflexivity.
Qed.

Lemma attempts_exhausted (n : nat) :
  forall attempt delay draws,
    Z.of_nat (attempt + S n) = max_retries ->
    (forall j, (attempt <= j <= attempt + n)%nat ->
               is_done (classify (responses w j)) = false) ->
    fst (attempts w max_retries (S n) attempt delay draws)
    = exhausted (classify (responses w (attempt + n))) /\
    posted (snd (attempts w max_retries (S n) attempt delay draws))
    = seq attempt (S n).
Proof.
  induction n as [|n IH]; intros attempt delay draws HM Hnot;
    rewrite attempts_classify; pose proof (Hnot attempt ltac:(lia)) as Ha.
  - rewrite Nat.add_0_r.
    destruct (classify (responses w attempt)) as [o|text|];
      [discriminate Ha| |].
    + destruct (Z.ltb_spec (Z.of_nat attempt) (max_retries - 1)); [lia|].
      split; reflexivity.
    + split; reflexivity.
  - assert (forall d c,
               fst (attempts w max_retries (S n) (S attempt) d c)
               = exhausted (classify (responses w (attempt + S n))) /\
               posted (snd (attempts w max_retries (S n) (S attempt) d c))
               = seq (S attempt) (S n)) as Hnext.
    { intros d c.
      replace (attempt + S n)%nat with (S attempt + n)%nat by lia.
      apply IH; [lia|]. intros j Hj. apply Hnot. lia. }
    destruct (classify (responses w attempt)) as [o|text|];
      [discriminate Ha| |].
    + destruct (Z.ltb_spec (Z.of_nat attempt) (max_retries - 1)); [|lia].
      cbn [fst snd posted]. destruct (Hnext (delay * 2) (S draws)) as [-> ->].
      split; reflexivity.
    + cbn [fst snd posted]. destruct (Hnext delay draws) as [-> ->].
      split; reflexivity.
Qed.

(** Where an outcome comes from: the loop ran out with nothing settled, or
    the last iteration met a backoff, or an answer settled the task. *)
Lemma attempts_outcome (n : nat) :
  forall attempt delay draws,
    let o := fst (attempts w max_retries n attempt delay draws) in
    o = Returned PNone \/
    (exists text k, (attempt <= k < attempt + n)%nat /\
                    classify (responses w k) = Backoff text /\
                    o = Returned (PStr text)) \/
    (exists k, (attempt <= k < attempt + n)%nat /\
               classify (responses w k) = Done o).
Proof.
  induction n as [|n IH]; intros attempt delay draws o; subst o;
    [left; reflexivity|].
  rewrite attempts_classify.
  assert (forall d c,
             let o := fst (attempts w max_retries n (S attempt) d c) in
             o = Returned PNone \/
             (exists text k, (attempt <= k < attempt + S n)%nat /\
                             classify (responses w k) = Backoff text /\
                             o = Returned (PStr text)) \/
             (exists k, (attempt <= k < attempt + S n)%nat /\
                        classify (responses w k) = Done o)) as Hnext.
  { intros d c o.
    destruct (IH (S attempt) d c) as [H|[(text & k & Hk & Hc & Ho)|(k & Hk & Hc)]].
    - left. exact H.
    - right. left. exists text, k. repeat split; try assumption; lia.
    - right. right. exists k. repeat split; try assumption; lia. }
  destruct (classify (responses w attempt)) as [o|text|] eqn:Ec.
  - right. right. exists attempt. split; [lia|exact Ec].
  - destruct (Z.of_nat attempt <? max_retries - 1)%Z.
    + exact (Hnext (delay * 2) (S draws)).
    + right. left. exists text, attempt. repeat split; [lia|lia|exact Ec].
  - exact (Hnext delay draws).
Qed.

Lemma classify_backoff (r : response) (text : string) :
  classify r = Backoff text -> failure_text text.
Proof.
  unfold classify, failure_text.
  destruct r as [status [data|e]|e];
    repeat match goal with
           | |- context [if ?b then _ else _] => destruct b
           end;
    intros H; inversion H; auto.
Qed.

Lemma classify_raised (r : response) (e : exn) :
  classify r = Done (Raised e) ->
  is_server_disconnected e = false /\ raises_at r e.
Proof.
  unfold classify, raises_at.
  destruct r as [status [data|e']|e'].
  - destruct (Z.eqb_spec status 200) as [->|_].
    + intros H. injection H as Hc. split.
      * exact (content_of_raises _ _ Hc).
      * right. right. eauto.
    + destruct (status =? 429)%Z; discriminate.
  - destruct (Z.eqb_spec status 200) as [->|_].
    + destruct (is_server_disconnected e') eqn:E; [discriminate|].
      intros H. injection H as <-. auto.
    + destruct (status =? 429)%Z; discriminate.
  - destruct (is_server_disconnected e') eqn:E; [discriminate|].
    intros H. injection H as <-. auto.
Qed.

Lemma classify_returned (r : response) (v : value) :
  classify r = Done (Returned v) ->
  exists data, r = Response 200 (Returned data) /\
               content_of data = Returned v.
Proof.
  unfold classify.
  destruct r as [status [data|e]|e].
  - destruct (Z.eqb_spec status 200) as [->|_].
    + intros H. injection H as Hc. eauto.
    + destruct (status =? 429)%Z; discriminate.
  - destruct (status =? 200)%Z;
      [destruct (is_server_disconnected e)|destruct (status =? 429)%Z];
      discriminate.
  - destruct (is_server_disconnected e); discriminate.
Qed.

(** The requests of a run are numbered from the first attempt on, without
    gap, and there is one as soon as there is an iteration. *)
Lemma attempts_posted (n : nat) :
  forall attempt delay draws,
    exists p, posted (snd (attempts w max_retries n attempt delay draws))
              = seq attempt p /\
              (p <= n)%nat /\ (1 <= n -> 1 <= p)%nat.
Proof.
  induction n as [|n IH]; intros attempt delay draws.
  - exists 0%nat. repeat split; [reflexivity|lia].
  - destruct (attempts_step w max_retries n attempt delay draws)
      as [[o E]|[E|E]]; cbv zeta in E; rewrite E; cbn [snd posted].
    + exists 1%nat. repeat split; lia.
    + destruct (IH (S attempt) delay draws) as (p & -> & Hp & _).
      exists (S p). repeat split; lia.
    + destruct (IH (S attempt) (delay * 2) (S draws)) as (p & -> & Hp & _).
      exists (S p). repeat split; lia.
Qed.

(** With the iterations left matching the range, a sleep is followed by the
    next request, and the last iteration never sleeps. *)
Lemma attempts_naps (n : nat) :
  forall attempt delay draws,
    Z.of_nat (attempt + n) = max_retries ->
    let evs := snd (attempts w max_retries n attempt delay draws) in
    (forall i d j, nth_error evs i = Some (Sleep d j) ->
                   exists a, nth_error evs (S i) = Some (Post a)) /\
    (S (List.length (sleeps evs)) <= n \/ n = 0)%nat /\
    (1 <= n -> exists rest, evs = Post attempt :: rest)%nat.
Proof.
  induction n as [|n IH]; intros attempt delay draws HM evs; subst evs.
  - cbn [attempts snd]. repeat split.
    + intros [|i] d j H; discriminate H.
    + right. reflexivity.
    + lia.
  - rewrite attempts_classify.
    destruct (classify (responses w attempt)) as [o|text|].
    + cbn [snd sleeps List.length]. repeat split.
      * intros [|[|i]] d j H; discriminate H.
      * left. lia.
      * eauto.
    + destruct (Z.ltb_spec (Z.of_nat attempt) (max_retries - 1)) as [Hlt|Hge].
      * destruct (IH (S attempt) (delay * 2) (S draws)) as (Hs & Hl & Hp);
          [lia|].
        cbn [snd sleeps List.length]. repeat split.
        -- intros [|[|i]] d j H; cbn [nth_error] in *.
           ++ discriminate H.
           ++ destruct Hp as [rest ->]; [lia|]. eauto.
           ++ exact (Hs i d j H).
        -- left. lia.
        -- eauto.
      * cbn [snd sleeps List.length]. repeat split.
        -- intros [|[|i]] d j H; discriminate H.
        -- left. lia.
        -- eauto.
    + destruct (IH (S attempt) delay draws) as (Hs & Hl & Hp); [lia|].
      cbn [snd sleeps List.length]. repeat split.
      * intros [|i] d j H; cbn [nth_error] in *; [discriminate H|].
        exact (Hs i d j H).
      * left. destruct Hl as [Hl| ->]; [lia|]. cbn. lia.
      * eauto.
Qed.

(** The delays slept on add up to the first one times 2^m - 1, for m
    sleeps. *)
Lemma attempts_total_delay (n : nat) :
  forall attempt delay draws,
    let naps := sleeps (snd (attempts w max_retries n attempt delay draws)) in
    total_delay naps
    == delay * (inject_Z (2 ^ Z.of_nat (List.length naps)) - 1).
Proof.
  induction n as [|n IH]; intros attempt delay draws naps; subst naps.
  - cbn. ring.
  - destruct (attempts_step w max_retries n attempt delay draws)
      as [[o E]|[E|E]]; cbv zeta in E; rewrite E;
      cbn [snd sleeps total_delay List.length].
    + change (inject_Z (2 ^ Z.of_nat 0)) with 1. ring.
    + exact (IH (S attempt) delay draws).
    + rewrite (IH (S attempt) (delay * 2) (S draws)).
      rewrite Nat2Z.inj_succ, Z.pow_succ_r by lia.
      rewrite inject_Z_mult. change (inject_Z 2) with 2. ring.
Qed.

End RetryPolicy.

(** Two runs that get the same answers end alike and make the same
    requests, whatever their delays and draws. *)
Lemma attempts_same_answers (w w' : task_world) (max_retries : Z) (n : nat) :
  forall attempt d c d' c',
    (forall j, (attempt <= j < attempt + n)%nat ->
               responses w j = responses w' j) ->
    fst (attempts w max_retries n attempt d c)
    = fst (attempts w' max_retries n attempt d' c') /\
    posted (snd (attempts w max_retries n attempt d c))
    = posted (snd (attempts w' max_retries n attempt d' c')).
Proof.
  induction n as [|n IH]; intros attempt d c d' c' H; [split; reflexivity|].
  rewrite !attempts_classify, <- (H attempt) by lia.
  assert (forall x y x' y',
             fst (attempts w max_retries n (S attempt) x y)
             = fst (attempts w' max_retries n (S attempt) x' y') /\
             posted (snd (attempts w max_retries n (S attempt) x y))
             = posted (snd (attempts w' max_retries n (S attempt) x' y')))
    as Hnext.
  { intros x y x' y'. apply IH. intros j Hj. apply H. lia. }
  destruct (classify (responses w attempt)) as [o|text|].
  - split; reflexivity.
  - destruct (Z.of_nat attempt <? max_retries - 1)%Z; [|split; reflexivity].
    cbn [fst snd posted].
    destruct (Hnext (d * 2) (S c) (d' * 2) (S c')) as [-> ->].
    split; reflexivity.
  - cbn [fst snd posted]. destruct (Hnext d c d' c') as [-> ->].
    split; reflexivity.
Qed.

Lemma posts_posted (evs : list event) :
  posts evs = List.length (posted evs).
Proof.
  induction evs as [|[a|x y] evs IH]; cbn [posts posted List.length];
    congruence.
Qed.

(** X1. The first answer that settles the task ends it: when the answers
    before attempt [k] (inside the range) all call for a backoff or are
    passed over and the answer to attempt [k] is a 200 with a body, or
    raises something else than a disconnection, the task ends with what that
    answer gives, after the requests 0, ..., k and no other. *)
Theorem first_settling_answer_wins
    (w : task_world) (max_retries : Z) (d : Q) (k : nat) (o : outcome value) :
  (Z.of_nat k < max_retries)%Z ->
  (forall j, (j < k)%nat -> is_done (classify (responses w j)) = false) ->
  classify (responses w k) = Done o ->
  fst (label_image_async w max_retries d) = o /\
  posted (snd (label_image_async w max_retries d)) = seq 0 (S k).
Proof.
  intros HM Hnot Hdone. unfold label_image_async.
  apply (attempts_first_done w max_retries k); [lia|exact HM| |exact Hdone].
  intros j Hj. apply Hnot. lia.
Qed.

Lemma first_settling_answer_wins_witness :
  fst (label_image_async (scenario 1%nat "b.png") 5 1)
  = Returned (PStr "Meme_Cat_Funny") /\
  posted (snd (label_image_async (scenario 1%nat "b.png") 5 1)) = [0; 1; 2]%nat.
Proof.
  apply (first_settling_answer_wins (scenario 1%nat "b.png") 5 1 2
           (Returned (PStr "Meme_Cat_Funny"))).
  - lia.
  - intros j Hj. do 2 (destruct j as [|j]; [reflexivity|]). lia.
  - reflexivity.
Defined.

(** X2. When none of the [max_retries >= 1] answers settles the task, every
    attempt of the range is made and the last answer alone decides what is
    returned: its error text if it called for a backoff ("Error: 429" for a
    429, "Error: Server disconnected" for a disconnection), [None] if it was
    passed over. *)
Theorem retries_exhausted (w : task_world) (max_retries : Z) (d : Q) :
  (1 <= max_retries)%Z ->
  (forall j, (Z.of_nat j < max_retries)%Z ->
             is_done (classify (responses w j)) = false) ->
  fst (label_image_async w max_retries d)
  = exhausted (classify (responses w (Z.to_nat max_retries - 1))) /\
  posted (snd (label_image_async w max_retries d))
  = seq 0 (Z.to_nat max_retries).
Proof.
  intros HM Hnot. unfold label_image_async.
  destruct (Z.to_nat max_retries) as [|n] eqn:En; [lia|].
  replace (S n - 1)%nat with (0 + n)%nat by lia.
  apply attempts_exhausted; [lia|].
  intros j Hj. apply Hnot. lia.
Qed.

Lemma retries_exhausted_witness :
  fst (label_image_async disconnected 5 1)
  = Returned (PStr "Error: Server disconnected") /\
  posted (snd (label_image_async disconnected 5 1)) = [0; 1; 2; 3; 4]%nat.
Proof.
  apply (retries_exhausted disconnected 5 1); [lia|].
  intros j _. reflexivity.
Defined.

(** X3. [label_image_async] never lets a [ServerDisconnectedError] out:
    an exception it raises is another one, raised by an attempt of the
    range (by the request, by reading the body of a 200, or by looking up
    the label in it). *)
Theorem raised_exception_provenance
    (w : task_world) (max_retries : Z) (d : Q) (e : exn) :
  fst (label_image_async w max_retries d) = Raised e ->
  is_server_disconnected e = false /\
  exists k, (k < Z.to_nat max_retries)%nat /\ raises_at (responses w k) e.
Proof.
  unfold label_image_async. intros H.
  destruct (attempts_outcome w max_retries (Z.to_nat max_retries) 0 d 0)
    as [Ho|[(text & k & Hk & Hc & Ho)|(k & Hk & Hc)]];
    cbv zeta in *; rewrite H in *; try discriminate Ho.
  destruct (classify_raised _ _ Hc) as [Hsd Hr].
  split; [exact Hsd|]. exists k. split; [lia|exact Hr].
Qed.

Lemma raised_exception_provenance_witness :
  is_server_disconnected (KeyError "choices") = false /\
  exists k, (k < 5)%nat /\
            raises_at (responses malformed_world k) (KeyError "choices").
Proof.
  exact (raised_exception_provenance malformed_world 5 1 (KeyError "choices")
           eq_refl).
Defined.

(** X4. A value returned by [label_image_async] is [None], one of the two
    error texts, or the content found in the body of a 200 answered to an
    attempt of the range: a label is never made up. *)
Theorem returned_value_provenance
    (w : task_world) (max_retries : Z) (d : Q) (v : value) :
  fst (label_image_async w max_retries d) = Returned v ->
  v = PNone \/
  (exists text, v = PStr text /\ failure_text text) \/
  (exists k data, (k < Z.to_nat max_retries)%nat /\
                  responses w k = Response 200 (Returned data) /\
                  content_of data = Returned v).
Proof.
  unfold label_image_async. intros H.
  destruct (attempts_outcome w max_retries (Z.to_nat max_retries) 0 d 0)
    as [Ho|[(text & k & Hk & Hc & Ho)|(k & Hk & Hc)]];
    cbv zeta in *; rewrite H in *.
  - left. congruence.
  - right. left. exists text. split; [congruence|].
    exact (classify_backoff _ _ Hc).
  - right. right. destruct (classify_returned _ _ Hc) as (data & Hr & Hd).
    exists k, data. repeat split; [lia|exact Hr|exact Hd].
Qed.

Lemma returned_value_provenance_witness :
  PStr "Meme_Cat_Funny" = PNone \/
  (exists text, PStr "Meme_Cat_Funny" = PStr text /\ failure_text text) \/
  (exists k data, (k < 5)%nat /\
                  responses (scenario 1%nat "b.png") k
                  = Response 200 (Returned data) /\
                  content_of data = Returned (PStr "Meme_Cat_Funny")).
Proof.
  exact (returned_value_provenance (scenario 1%nat "b.png") 5 1
           (PStr "Meme_Cat_Funny") eq_refl).
Defined.

(** X5. The requests of a task are the attempts 0, 1, ..., p-1 in this
    order, for some p that is at most [max_retries], and at least 1 as soon
    as [max_retries] is: no attempt is skipped or repeated, and no image
    costs more than [max_retries] requests. *)
Theorem requests_numbered_and_bounded
    (w : task_world) (max_retries : Z) (d : Q) :
  exists p, posted (snd (label_image_async w max_retries d)) = seq 0 p /\
            posts (snd (label_image_async w max_retries d)) = p /\
            (Nat.min 1 (Z.to_nat max_retries) <= p <= Z.to_nat max_retries)%nat.
Proof.
  unfold label_image_async.
  destruct (attempts_posted w max_retries (Z.to_nat max_retries) 0 d 0)
    as (p & Hp & Hle & Hge).
  exists p. split; [exact Hp|]. split; [|lia].
  rewrite posts_posted, Hp. apply length_seq.
Qed.

(** X6. Every sleep of a task is followed by a request, so that a task
    never sleeps after its last attempt, and it sleeps at most
    [max_retries - 1] times. *)
Theorem sleeps_between_requests
    (w : task_world) (max_retries : Z) (d0 : Q) (i : nat) (d j : Q) :
  nth_error (snd (label_image_async w max_retries d0)) i = Some (Sleep d j) ->
  (exists a, nth_error (snd (label_image_async w max_retries d0)) (S i)
             = Some (Post a)) /\
  (List.length (sleeps (snd (label_image_async w max_retries d0)))
   <= Z.to_nat max_retries - 1)%nat.
Proof.
  unfold label_image_async. intros H.
  destruct (Z.le_gt_cases 0 max_retries) as [Hpos|Hneg].
  - destruct (attempts_naps w max_retries (Z.to_nat max_retries) 0 d0 0)
      as (Hs & Hl & _); [lia|].
    split; [exact (Hs i d j H)|].
    destruct Hl as [Hl|Hl]; [lia|]. rewrite Hl. cbn. lia.
  - replace (Z.to_nat max_retries) with 0%nat in H by lia.
    destruct i; discriminate H.
Qed.

Lemma sleeps_between_requests_witness :
  (exists a, nth_error (snd (label_image_async throttled 5 1)) 2
             = Some (Post a)) /\
  (List.length (sleeps (snd (label_image_async throttled 5 1)))
   <= Z.to_nat 5 - 1)%nat.
Proof.
  exact (sleeps_between_requests throttled 5 1 1 1 0 eq_refl).
Defined.

(** X7. The delays a task sleeps on add up to [initial_delay] times
    2^m - 1 for its m sleeps, hence to at most [initial_delay] times
    2^(max_retries - 1) - 1: 15 seconds with the defaults, draws apart. *)
Theorem total_backoff_bounded
    (w : task_world) (max_retries : Z) (initial_delay : Q) :
  0 <= initial_delay ->
  let naps := sleeps (snd (label_image_async w max_retries initial_delay)) in
  total_delay naps
  == initial_delay * (inject_Z (2 ^ Z.of_nat (List.length naps)) - 1) /\
  total_delay naps
  <= initial_delay * (inject_Z (2 ^ Z.of_nat (Z.to_nat max_retries - 1)) - 1).
Proof.
  intros Hd naps.
  pose proof (attempts_total_delay w max_retries (Z.to_nat max_retries) 0
                initial_delay 0) as Ht.
  cbv zeta in Ht. fold (label_image_async w max_retries initial_delay) in Ht.
  fold naps in Ht. split; [exact Ht|]. rewrite Ht.
  assert (List.length naps <= Z.to_nat max_retries - 1)%nat as Hlen.
  { subst naps. unfold label_image_async.
    destruct (Z.le_gt_cases 0 max_retries) as [Hpos|Hneg].
    - destruct (attempts_naps w max_retries (Z.to_nat max_retries) 0
                  initial_delay 0) as (_ & Hl & _); [lia|].
      destruct Hl as [Hl|Hl]; [lia|]. rewrite Hl. cbn. lia.
    - replace (Z.to_nat max_retries) with 0%nat by lia. cbn. lia. }
  rewrite !(Qmult_comm initial_delay).
  apply Qmult_le_compat_r; [|exact Hd].
  unfold Qminus. apply Qplus_le_l. rewrite <- Zle_Qle.
  apply Z.pow_le_mono_r; lia.
Qed.

Lemma total_backoff_bounded_witness :
  total_delay (sleeps (snd (label_image_async throttled 5 1)))
  <= 1 * (inject_Z (2 ^ Z.of_nat (Z.to_nat 5 - 1)) - 1).
Proof.
  refine (proj2 (total_backoff_bounded throttled 5 1 _)).
  discriminate.
Defined.

(** X8. What a task ends in and which requests it makes depend on the
    answers to the attempts of the range only: not on the answers that
    would come later, not on the initial delay, not on the draws. *)
Theorem outcome_ignores_timing
    (w w' : task_world) (max_retries : Z) (d d' : Q) :
  (forall j, (Z.of_nat j < max_retries)%Z -> responses w j = responses w' j) ->
  fst (label_image_async w max_retries d)
  = fst (label_image_async w' max_retries d') /\
  posted (snd (label_image_async w max_retries d))
  = posted (snd (label_image_async w' max_retries d')).
Proof.
  intros H. unfold label_image_async.
  apply attempts_same_answers. intros j Hj. apply H. lia.
Qed.

Lemma outcome_ignores_timing_witness :
  fst (label_image_async late_success 5 1)
  = fst (label_image_async throttled 5 (7 # 2)) /\
  posted (snd (label_image_async late_success 5 1))
  = posted (snd (label_image_async throttled 5 (7 # 2))).
Proof.
  apply (outcome_ignores_timing late_success throttled 5 1 (7 # 2)).
  intros j Hj. do 5 (destruct j as [|j]; [reflexivity|]). lia.
Defined.

(** ** The batch, task by task *)

Section Gathering.

Variable w : world.

(** [gather] lists a position with an exception exactly when the task at
    that position raised it. *)
Lemma gather_raising (results : list (outcome value)) :
  forall i0 i e,
    In (i, e) (snd (gather i0 results)) <->
    (i0 <= i)%nat /\ nth_error results (i - i0) = Some (Raised e).
Proof.
  induction results as [|r rs IH]; intros i0 i e.
  - cbn [gather snd In]. split; [intros []|].
    intros [_ H]. destruct (i - i0)%nat; discriminate H.
  - cbn [gather]. specialize (IH (S i0) i e).
    destruct (gather (S i0) rs) as [vs es]. cbn [snd] in IH.
    destruct r as [v|e']; cbn [snd In].
    + rewrite IH. split.
      * intros [Hle H]. split; [lia|].
        replace (i - i0)%nat with (S (i - S i0)) by lia. exact H.
      * intros [Hle H].
        destruct (i - i0)%nat as [|m] eqn:Em; [discriminate H|].
        split; [lia|]. replace (i - S i0)%nat with m by lia. exact H.
    + rewrite IH. split.
      * intros [H|[Hle H]].
        -- injection H as <- <-. split; [lia|].
           rewrite Nat.sub_diag. reflexivity.
        -- split; [lia|].
           replace (i - i0)%nat with (S (i - S i0)) by lia. exact H.
      * intros [Hle H].
        destruct (i - i0)%nat as [|m] eqn:Em.
        -- left. injection H as <-. f_equal. lia.
        -- right. split; [lia|].
           replace (i - S i0)%nat with m by lia. exact H.
Qed.

Lemma run_tasks_outcomes (image_files : list string) (i : nat)
    (o : outcome value) :
  nth_error (map fst (run_tasks w 0 image_files)) i = Some o <->
  exists f, nth_error image_files i = Some f /\ task_outcome w i f = o.
Proof.
  split.
  - intros H. destruct (nth_error image_files i) as [f|] eqn:Ef.
    + rewrite (run_tasks_nth w _ 0 i f Ef) in H. injection H as <-. eauto.
    + apply nth_error_None in Ef.
      assert (nth_error (map fst (run_tasks w 0 image_files)) i = None) as Hn
        by (apply nth_error_None; rewrite length_map, run_tasks_length; lia).
      congruence.
  - intros (f & Ef & <-). exact (run_tasks_nth w _ 0 i f Ef).
Qed.

Lemma total_posts_bounds (image_files : list string) :
  forall i0,
    (List.length image_files <= total_posts (run_tasks w i0 image_files)
     <= 5 * List.length image_files)%nat.
Proof.
  induction image_files as [|f fs IH]; intros i0;
    cbn [run_tasks total_posts List.length]; [lia|].
  specialize (IH (S i0)).
  unfold label_image_async.
  change (Z.to_nat default_max_retries) with 5%nat.
  destruct (attempts_posted (w i0 f) default_max_retries 5 0
              default_initial_delay 0) as (p & Hp & Hle & Hge).
  rewrite posts_posted, Hp, length_seq. lia.
Qed.

End Gathering.

(** X9. When [get_labels] raises, some task raised: the exceptions it can
    raise are exactly those raised by the tasks of the batch, each at the
    position of its file, and none of them is a disconnection. *)
Theorem get_labels_raises_what_a_task_raised
    (w : world) (image_files : list string) (raising : list (nat * exn)) :
  get_labels w image_files = Aborted raising ->
  raising <> [] /\
  (forall i e, In (i, e) raising <->
               exists f, nth_error image_files i = Some f /\
                         task_outcome w i f = Raised e) /\
  (forall i e, In (i, e) raising -> is_server_disconnected e = false).
Proof.
  unfold get_labels. intros H.
  pose proof (gather_raising (map fst (run_tasks w 0 image_files)) 0) as G.
  destruct (gather 0 (map fst (run_tasks w 0 image_files))) as [vs es].
  cbn [snd] in G.
  assert (es = raising) as -> by (destruct es; [discriminate H|congruence]).
  assert (forall i e, In (i, e) raising <->
                      exists f, nth_error image_files i = Some f /\
                                task_outcome w i f = Raised e) as Hin.
  { intros i e. rewrite G, Nat.sub_0_r, run_tasks_outcomes.
    split; [intros [_ Hf]; exact Hf|intros Hf; split; [lia|exact Hf]]. }
  split; [destruct raising; [discriminate H|discriminate]|].
  split; [exact Hin|].
  intros i e Hi. apply Hin in Hi. destruct Hi as (f & _ & Hf).
  unfold task_outcome in Hf.
  destruct (attempts_outcome (w i f) default_max_retries
              (Z.to_nat default_max_retries) 0 default_initial_delay 0)
    as [Ho|[(text & k & Hk & Hc & Ho)|(k & Hk & Hc)]];
    cbv zeta in *; unfold label_image_async in Hf; rewrite Hf in *;
    try discriminate Ho.
  exact (proj1 (classify_raised _ _ Hc)).
Qed.

Lemma get_labels_raises_what_a_task_raised_witness :
  [(1%nat, KeyError "choices")] <> [] /\
  (forall i e, In (i, e) [(1%nat, KeyError "choices")] <->
               exists f, nth_error ["a.png"; "b.png"] i = Some f /\
                         task_outcome one_bad i f = Raised e) /\
  (forall i e, In (i, e) [(1%nat, KeyError "choices")] ->
               is_server_disconnected e = false).
Proof.
  exact (get_labels_raises_what_a_task_raised one_bad ["a.png"; "b.png"]
           [(1%nat, KeyError "choices")] eq_refl).
Defined.

(** ** The file-move loop, item by item *)

Section Moving.

Variable dst_path : string.
Variable keep_originals : bool.

Lemma removed_app (a b : list fs_action) :
  removed (a ++ b) = (removed a ++ removed b)%list.
Proof.
  induction a as [|x a IH]; [reflexivity|].
  destruct x; cbn [app removed]; rewrite IH; reflexivity.
Qed.

Lemma removed_move_one (image label : string) :
  removed (move_one dst_path keep_originals image label)
  = if keep_originals then [] else [image].
Proof. unfold move_one. destruct keep_originals; reflexivity. Qed.

(** The loop does what it does on the [str] labels it meets first; it ends
    well when that is all of them, with [AttributeError] otherwise. *)
Lemma move_loop_prefix (pairs : list (string * value)) :
  move_loop dst_path keep_originals pairs
  = (fst (move_loop dst_path keep_originals (str_prefix pairs)),
     if forallb (fun p => is_str (snd p)) pairs then None
     else Some AttributeError).
Proof.
  induction pairs as [|[image label] rest IH]; [reflexivity|].
  destruct label; try reflexivity.
  cbn [move_loop str_prefix forallb snd is_str andb]. rewrite IH.
  destruct (move_loop dst_path keep_originals (str_prefix rest)).
  reflexivity.
Qed.

Lemma str_prefix_all_str (pairs : list (string * value)) :
  all_str (str_prefix pairs).
Proof.
  induction pairs as [|[image label] rest IH]; [constructor|].
  destruct label; try constructor; [reflexivity|exact IH].
Qed.

End Moving.

Section Alphabet.

Local Ltac each_char c := destruct c as [[] [] [] [] [] [] [] []].


End Alphabet.



(** ** Where a file goes *)

Section Destinations.

Lemma move_one_destination (dst_path : string) (keep_originals : bool)
    (image label : string) :
  move_one dst_path keep_originals image label
  = ([Makedirs (folder_of dst_path label);
      Copy image (destination dst_path image label)]
     ++ (if keep_originals then [] else [Remove image]))%list.
Proof. reflexivity. Qed.

Lemma contains_app (c : ascii) (a b : string) :
  contains c (a ++ b) = (contains c a || contains c b)%bool.
Proof.
  induction a as [|x a IH]; cbn [append contains]; [reflexivity|].
  rewrite IH, orb_assoc. reflexivity.
Qed.

Lemma endswith_app (a : string) (x : ascii) (b : string) (c : ascii) :
  endswith (a ++ String x b) c = endswith (String x b) c.
Proof.
  induction a as [|y a IH]; [reflexivity|].
  cbn [append]. rewrite <- IH. cbn [endswith].
  destruct (a ++ String x b) eqn:E; [|reflexivity].
  destruct a; discriminate E.
Qed.

(** A folder name ends with the added s: joining the empty name to it adds
    just the separator. *)
Lemma os_path_join_folder (dst_path category : string) :
  os_path_join (os_path_join dst_path (category ++ "s")) ""
  = os_path_join dst_path (category ++ "s") ++ "/".
Proof.
  assert (forall a, os_path_join (a ++ "s") "" = (a ++ "s") ++ "/") as H.
  { intros a. unfold os_path_join. cbn [startswith].
    rewrite endswith_app. cbn [endswith Ascii.eqb Bool.eqb].
    destruct a; reflexivity. }
  assert (exists pre, os_path_join dst_path (category ++ "s")
                      = pre ++ "s") as [pre ->]; [|apply H].
  unfold os_path_join.
  destruct (startswith (category ++ "s") "/"); [eauto|].
  destruct (String.eqb dst_path EmptyString || endswith dst_path "/")%bool.
  - exists (dst_path ++ category). apply eq_sym, append_assoc.
  - exists (dst_path ++ "/" ++ category). rewrite !append_assoc. reflexivity.
Qed.

Lemma contains_sanitize_label (s : string) :
  contains "/" (sanitize_label s) = false.
Proof.
  rewrite sanitize_label_map. apply contains_sanitized. left. reflexivity.
Qed.

Lemma startswith_category (label : string) :
  startswith (hd EmptyString (split "_" label) ++ "s") "/"
  = startswith label "/".
Proof.
  rewrite split_hd. destruct label as [|c label]; [reflexivity|].
  cbn [before_first].
  destruct (Ascii.eqb_spec c "_") as [->|_]; reflexivity.
Qed.

End Destinations.

(** X15. The image is copied straight into the folder made for its label:
    the destination is that folder, a slash, and a file name without any
    slash (the sanitized remainder, a dot and the extension), provided the
    extension of the image has no slash, as for the files that
    [find_images] finds. *)
Theorem copied_directly_into_folder
    (dst_path : string) (keep_originals : bool) (image label : string) :
  contains "/" (extension image) = false ->
  exists name,
    contains "/" name = false /\
    move_one dst_path keep_originals image label
    = ([Makedirs (folder_of dst_path label);
        Copy image (folder_of dst_path label ++ "/" ++ name)]
       ++ (if keep_originals then [] else [Remove image]))%list.
Proof.
  intros Hext.
  exists (sanitize_label
            (slice_from (String.length (hd EmptyString (split "_" label)) + 1)
               label) ++ "." ++ extension image).
  split.
  - rewrite !contains_app, contains_sanitize_label, Hext. reflexivity.
  - rewrite move_one_destination. unfold destination, folder_of.
    rewrite (os_path_join_name _ _ (sanitized_not_absolute _)).
    rewrite os_path_join_folder, !append_assoc. reflexivity.
Qed.

Lemma copied_directly_into_folder_witness :
  exists name,
    contains "/" name = false /\
    move_one "/pics/sorted" false "/pics/a.png" "Meme_Cat/Dog"
    = [Makedirs (folder_of "/pics/sorted" "Meme_Cat/Dog");
       Copy "/pics/a.png" (folder_of "/pics/sorted" "Meme_Cat/Dog" ++ "/" ++ name);
       Remove "/pics/a.png"].
Proof.
  exact (copied_directly_into_folder "/pics/sorted" false "/pics/a.png"
           "Meme_Cat/Dog" eq_refl).
Defined.

(** X17. Two images whose labels and extensions give the same destination
    overwrite each other: after the loop has handled both without keeping
    originals, the destination holds the second image, both originals are
    gone, and the content of the first is at none of these paths. *)
Theorem same_destination_loses_first
    (d : disk) (dst_path image1 image2 label1 label2 : string) :
  destination dst_path image1 label1 = destination dst_path image2 label2 ->
  image1 <> image2 ->
  destination dst_path image1 label1 <> image1 ->
  destination dst_path image1 label1 <> image2 ->
  let after :=
    perform_all d
      (fst (move_loop dst_path false
              [(image1, PStr label1); (image2, PStr label2)])) in
  after (destination dst_path image1 label1) = d image2 /\
  after image1 = None /\
  after image2 = None.
Proof.
  intros Hsame H12 Hd1 Hd2 after. subst after.
  cbn [move_loop fst]. rewrite !move_one_destination.
  cbn [app perform_all fold_left perform]. rewrite <- Hsame.
  set (dest := destination dst_path image1 label1) in *.
  apply String.eqb_neq in H12, Hd1, Hd2.
  assert ((image2 =? image1) = false) as H21
    by (rewrite String.eqb_sym; exact H12).
  assert ((image1 =? dest) = false) as H1d
    by (rewrite String.eqb_sym; exact Hd1).
  assert ((image2 =? dest) = false) as H2d
    by (rewrite String.eqb_sym; exact Hd2).
  rewrite !String.eqb_refl, ?Hd2, ?H12, ?H21, ?H1d, ?H2d, ?String.eqb_refl.
  repeat split.
Qed.

Lemma same_destination_loses_first_witness :
  let d : disk := fun p =>
    if String.eqb p "/pics/a.png" then Some "first"
    else if String.eqb p "/pics/b.png" then Some "second" else None in
  let after :=
    perform_all d
      (fst (move_loop "/pics/sorted" false
              [("/pics/a.png", PStr "Meme_Cat/Dog");
               ("/pics/b.png", PStr "Meme_Cat:Dog")])) in
  after "/pics/sorted/Memes/Cat_Dog.png" = Some "second" /\
  after "/pics/a.png" = None /\ after "/pics/b.png" = None.
Proof.
  intros d.
  refine (same_destination_loses_first d "/pics/sorted" "/pics/a.png"
            "/pics/b.png" "Meme_Cat/Dog" "Meme_Cat:Dog" _ _ _ _).
  - reflexivity.
  - discriminate.
  - discriminate.
  - discriminate.
Defined.

(** ** Labels as text *)

Section Labels.

Lemma sanitize_char_fixed (c : ascii) :
  existsb (Ascii.eqb c) invalid_chars = false -> sanitize_char c = c.
Proof. unfold sanitize_char. intros ->. reflexivity. Qed.

Lemma clean_cons (c : ascii) (s : string) :
  Forall (fun x => contains x (String c s) = false) invalid_chars ->
  existsb (Ascii.eqb c) invalid_chars = false /\
  Forall (fun x => contains x s = false) invalid_chars.
Proof.
  intros H. rewrite Forall_forall in H. split.
  - destruct (existsb (Ascii.eqb c) invalid_chars) eqn:E; [|reflexivity].
    apply existsb_exists in E. destruct E as (x & Hx & Hcx).
    specialize (H x Hx). cbn [contains] in H.
    rewrite Hcx in H. discriminate H.
  - apply Forall_forall. intros x Hx. specialize (H x Hx).
    cbn [contains] in H. apply orb_false_elim in H. apply H.
Qed.

End Labels.

(** X19. What the loop takes from a label loses nothing of it: with an
    underscore in the label, the folder name (which has no underscore), an
    underscore and the remainder make up the label again; without one, the
    folder name is the whole label and the remainder is empty. *)
Theorem label_decomposition (label : string) :
  let folder_name := hd EmptyString (split "_" label) in
  let remainder := slice_from (String.length folder_name + 1) label in
  contains "_" folder_name = false /\
  (if contains "_" label
   then label = folder_name ++ String "_" remainder
   else folder_name = label /\ remainder = EmptyString).
Proof.
  cbv zeta. rewrite split_hd, slice_after.
  induction label as [|c label IH]; [repeat split|].
  cbn [before_first after_first contains].
  destruct (Ascii.eqb c "_") eqn:Ec.
  - apply Ascii.eqb_eq in Ec. subst c. split; reflexivity.
  - cbn [orb contains]. rewrite Ec. destruct IH as [IH1 IH2].
    split; [exact IH1|].
    destruct (contains "_" label).
    + cbn [append]. f_equal. exact IH2.
    + destruct IH2 as [-> ->]. split; reflexivity.
Qed.

(** ** Finding the images *)

Section Finding.

Variable glob : string -> list string.
Variable directory : string.

Lemma fold_left_extend (A B : Type) (f : A -> list B) (l : list A) :
  forall acc,
    fold_left (fun files x => (files ++ f x)%list) l acc
    = (acc ++ flat_map f l)%list.
Proof.
  induction l as [|x l IH]; intros acc; cbn [fold_left flat_map].
  - rewrite app_nil_r. reflexivity.
  - rewrite IH, app_assoc. reflexivity.
Qed.

(** The images found are those of each extension in turn. *)
Lemma find_images_flat_map :
  find_images glob directory
  = flat_map (fun ext => glob (pattern directory ext)) extensions.
Proof. unfold find_images. rewrite fold_left_extend. reflexivity. Qed.

Lemma extension_of_match (ext path : string) :
  In ext extensions -> has_suffix (String "." ext) path ->
  extension path = ext.
Proof.
  intros Hext [stem ->]. apply extension_after_last_dot.
  cbn [extensions In] in Hext.
  repeat (destruct Hext as [<-|Hext]; [reflexivity|]). destruct Hext.
Qed.

Lemma NoDup_flat_map (A B : Type) (f : A -> list B) (l : list A) :
  NoDup l ->
  (forall x, In x l -> NoDup (f x)) ->
  (forall x y b, In x l -> In y l -> In b (f x) -> In b (f y) -> x = y) ->
  NoDup (flat_map f l).
Proof.
  induction 1 as [|x l Hx Hl IH]; intros Hf Hdis; cbn [flat_map];
    [constructor|].
  apply NoDup_app.
  - apply Hf. left. reflexivity.
  - apply IH.
    + intros y Hy. apply Hf. right. exact Hy.
    + intros y z b Hy Hz. apply Hdis; right; assumption.
  - intros b Hb Hb'. apply in_flat_map in Hb'. destruct Hb' as (y & Hy & Hby).
    assert (x = y) as -> by (apply (Hdis x y b); auto using in_eq, in_cons).
    contradiction.
Qed.

End Finding.

Lemma sample_glob_ends_with_extension :
  glob_ends_with_extension sample_glob "/pics".
Proof.
  intros ext path Hext Hin. cbn [extensions In] in Hext.
  repeat (destruct Hext as [<-|Hext]; [cbn in Hin|]);
    try contradiction;
    repeat (destruct Hin as [<-|Hin]; [|try contradiction]).
  - exists "/pics/a". reflexivity.
  - exists "/pics/old/b". reflexivity.
  - exists "/pics/c". reflexivity.
Qed.

Lemma sample_glob_lists_once : glob_lists_once sample_glob "/pics".
Proof.
  intros ext Hext. cbn [extensions In] in Hext.
  repeat (destruct Hext as [<-|Hext];
          [cbn; repeat constructor; cbn; intuition discriminate|]).
  destruct Hext.
Qed.

(** X20. Every image [find_images] finds ends with a dot and one of the
    five extensions, [image.split(".")[-1]] is that extension, and the path
    the image is copied to ends with the same dot and extension, whatever
    the label. *)
Theorem found_images_keep_extension
    (glob : string -> list string) (directory image : string) :
  glob_ends_with_extension glob directory ->
  In image (find_images glob directory) ->
  In (extension image) extensions /\
  has_suffix (String "." (extension image)) image /\
  forall dst_path label,
    has_suffix (String "." (extension image))
      (destination dst_path image label).
Proof.
  intros Hglob Hin. rewrite find_images_flat_map in Hin.
  apply in_flat_map in Hin. destruct Hin as (ext & Hext & Hin).
  pose proof (Hglob ext image Hext Hin) as Hsuf.
  rewrite (extension_of_match ext image Hext Hsuf).
  split; [exact Hext|]. split; [exact Hsuf|].
  intros dst_path label. unfold destination.
  rewrite (extension_of_match ext image Hext Hsuf).
  eexists. reflexivity.
Qed.

Lemma found_images_keep_extension_witness :
  In (extension "/pics/old/b.png") extensions /\
  has_suffix (String "." (extension "/pics/old/b.png")) "/pics/old/b.png" /\
  forall dst_path label,
    has_suffix (String "." (extension "/pics/old/b.png"))
      (destination dst_path "/pics/old/b.png" label).
Proof.
  apply (found_images_keep_extension sample_glob "/pics" "/pics/old/b.png").
  - exact sample_glob_ends_with_extension.
  - right. left. reflexivity.
Defined.

(** X21. [find_images] lists no file twice, so that no image is copied or
    removed a second time: the five extensions are distinct, a path has one
    extension, and [glob] lists a path once per pattern. *)
Theorem find_images_lists_once
    (glob : string -> list string) (directory : string) :
  glob_ends_with_extension glob directory ->
  glob_lists_once glob directory ->
  NoDup (find_images glob directory).
Proof.
  intros Hglob Honce. rewrite find_images_flat_map.
  apply NoDup_flat_map.
  - unfold extensions. repeat constructor; cbn; intuition discriminate.
  - exact Honce.
  - intros x y path Hx Hy Hpx Hpy.
    rewrite <- (extension_of_match x path Hx (Hglob x path Hx Hpx)).
    exact (extension_of_match y path Hy (Hglob y path Hy Hpy)).
Qed.

Lemma find_images_lists_once_witness :
  NoDup (find_images sample_glob "/pics") /\
  find_images sample_glob "/pics"
  = ["/pics/a.png"; "/pics/old/b.png"; "/pics/c.jpg"].
Proof.
  split; [|reflexivity].
  apply (find_images_lists_once sample_glob "/pics").
  - exact sample_glob_ends_with_extension.
  - exact sample_glob_lists_once.
Defined.

(** ** Reading the body *)

(** X22. The label is read from a body exactly when the body is an object
    whose "choices" is a list that starts with an object whose "message" is
    an object with a "content": the label is that content. Any other body
    (a missing key, an empty list, a text or a number in place of an object)
    makes the lookup raise. *)
Theorem content_of_well_formed (data v : value) :
  content_of data = Returned v <->
  exists entries choice others message,
    data = PDict entries /\
    lookup "choices" entries = Some (PList (PDict choice :: others)) /\
    lookup "message" choice = Some (PDict message) /\
    lookup "content" message = Some v.
Proof.
  unfold content_of, bind, getitem_str, getitem_0. split.
  - intros H.
    destruct data as [| | | | |items|entries]; try discriminate H.
    destruct (lookup "choices" entries) as [choices|] eqn:Eh;
      [|discriminate H].
    destruct choices as [| | | |[|c s]|[|first others]|centries];
      try discriminate H.
    destruct first as [| | | | |items|choice]; try discriminate H.
    destruct (lookup "message" choice) as [message|] eqn:Em;
      [|discriminate H].
    destruct message as [| | | | |items|message]; try discriminate H.
    destruct (lookup "content" message) as [content|] eqn:Ec;
      [|discriminate H].
    injection H as <-. exists entries, choice, others, message.
    repeat split; [exact Eh|exact Em|exact Ec].
  - intros (entries & choice & others & message & -> & -> & -> & ->).
    reflexivity.
Qed.

Lemma content_of_well_formed_witness :
  content_of
    (PDict [("choices",
             PList [PDict [("message",
                            PDict [("content", PStr "Meme_Cat_Funny")])]])])
  = Returned (PStr "Meme_Cat_Funny").
Proof.
  apply (proj2 (content_of_well_formed _ _)).
  eexists _, _, _, _. repeat split.
Defined.

(** ** The run on a file system that can fail *)

Section Prefixes.

Context {A : Type}.

Lemma nth_error_firstn_some (l : list A) (k i : nat) (x : A) :
  nth_error (firstn k l) i = Some x ->
  nth_error l i = Some x /\ (i < k)%nat.
Proof.
  revert k i. induction l as [|y l IH]; intros [|k] [|i] H;
    cbn [firstn nth_error] in *; try discriminate H.
  - split; [exact H|lia].
  - destruct (IH k i H) as [H1 H2]. split; [exact H1|lia].
Qed.

Lemma nth_error_firstn_lt (l : list A) (k i : nat) :
  (i < k)%nat -> nth_error (firstn k l) i = nth_error l i.
Proof.
  revert k i. induction l as [|y l IH]; intros [|k] [|i] H;
    cbn [firstn nth_error]; try reflexivity; try lia.
  apply IH. lia.
Qed.

(** A prefix of the first list is a prefix of the two lists in a row. *)
Lemma firstn_prefix_app (l1 l2 : list A) (k : nat) :
  exists k', firstn k l1 = firstn k' (l1 ++ l2).
Proof.
  destruct (Nat.le_gt_cases k (List.length l1)) as [Hle|Hgt].
  - exists k. rewrite firstn_app.
    replace (k - List.length l1)%nat with 0%nat by lia.
    cbn [firstn]. rewrite app_nil_r. reflexivity.
  - exists (List.length l1). rewrite firstn_app, Nat.sub_diag.
    cbn [firstn]. rewrite app_nil_r, firstn_all.
    apply firstn_all2. lia.
Qed.

Lemma in_combine_nth {B : Type} (l1 : list A) (l2 : list B) (x : A) (y : B) :
  In (x, y) (combine l1 l2) ->
  exists i, nth_error l1 i = Some x /\ nth_error l2 i = Some y.
Proof.
  revert l2. induction l1 as [|a l1 IH]; intros [|b l2] H;
    cbn [combine In] in H; try contradiction.
  destruct H as [H|H].
  - injection H as -> ->. exists 0%nat. split; reflexivity.
  - destruct (IH l2 H) as (i & H1 & H2). exists (S i). split; assumption.
Qed.

End Prefixes.

Section OnFileSystem.

Variable fs : file_system.
Variable dst_path : string.
Variable keep_originals : bool.

Lemma move_loop_cons (image label : string) (rest : list (string * value)) :
  move_loop dst_path keep_originals ((image, PStr label) :: rest)
  = ((move_one dst_path keep_originals image label
      ++ fst (move_loop dst_path keep_originals rest))%list,
     snd (move_loop dst_path keep_originals rest)).
Proof.
  cbn [move_loop]. destruct (move_loop dst_path keep_originals rest).
  reflexivity.
Qed.

(** The calls that succeed are the first of those to make, all of them
    when none raises. *)
Lemma perform_calls_prefix (todo : list fs_action) :
  forall done,
    (exists k, fst (perform_calls fs done todo) = firstn k todo) /\
    (snd (perform_calls fs done todo) = None ->
     fst (perform_calls fs done todo) = todo).
Proof.
  induction todo as [|a todo IH]; intros done; cbn [perform_calls].
  - split; [exists 0%nat; reflexivity|reflexivity].
  - destruct (call_raises fs done a) as [e|].
    + split; [exists 0%nat; reflexivity|discriminate].
    + destruct (IH (done ++ [a])%list) as [[k Hk] Hall].
      destruct (perform_calls fs (done ++ [a]) todo) as [acts err].
      cbn [fst snd] in *. split.
      * exists (S k). cbn [firstn]. rewrite Hk. reflexivity.
      * intros H. rewrite (Hall H). reflexivity.
Qed.

(** Whatever the file system does, the calls that succeed are the first
    calls of the loop on a file system that never fails. *)
Lemma move_loop_on_prefix (pairs : list (string * value)) :
  forall done,
    exists k,
      fst (move_loop_on fs dst_path keep_originals done pairs)
      = firstn k (fst (move_loop dst_path keep_originals pairs)).
Proof.
  induction pairs as [|[image label] rest IH]; intros done;
    [exists 0%nat; reflexivity|].
  destruct label; try (exists 0%nat; reflexivity).
  rewrite move_loop_cons. cbn [move_loop_on fst].
  destruct (perform_calls_prefix
              (move_one dst_path keep_originals image s) done)
    as [[k1 Hk1] Hall].
  destruct (perform_calls fs done
              (move_one dst_path keep_originals image s)) as [acts [e|]];
    cbn [fst snd] in *.
  - rewrite Hk1. apply firstn_prefix_app.
  - rewrite (Hall eq_refl).
    destruct (IH (done ++ move_one dst_path keep_originals image s)%list)
      as [k2 Hk2].
    rewrite (Hall eq_refl) in *.
    destruct (move_loop_on fs dst_path keep_originals _ rest) as [acts' err].
    cbn [fst] in *.
    exists (List.length (move_one dst_path keep_originals image s) + k2)%nat.
    rewrite firstn_app_2, Hk2. reflexivity.
Qed.

(** The loop ends well only over [str] labels. *)
Lemma move_loop_on_none (pairs : list (string * value)) :
  forall done,
    snd (move_loop_on fs dst_path keep_originals done pairs) = None ->
    forallb (fun p => is_str (snd p)) pairs = true.
Proof.
  induction pairs as [|[image label] rest IH]; intros done H;
    [reflexivity|].
  destruct label; try discriminate H.
  cbn [move_loop_on forallb snd is_str andb] in *.
  destruct (perform_calls fs done _) as [acts [e|]]; [discriminate H|].
  specialize (IH (done ++ acts)%list).
  destruct (move_loop_on fs dst_path keep_originals (done ++ acts) rest)
    as [acts' err].
  apply IH. exact H.
Qed.

Hypothesis fs_quiet : quiet fs.

Lemma perform_move_one (done : list fs_action) (image label : string) :
  in_place dst_path (image, PStr label) = false ->
  perform_calls fs done (move_one dst_path keep_originals image label)
  = (move_one dst_path keep_originals image label, None).
Proof.
  unfold in_place. cbn [fst snd]. intros Hp.
  unfold move_one. fold (folder_of dst_path label).
  fold (destination dst_path image label).
  destruct keep_originals; cbn [app perform_calls call_raises];
    rewrite Hp, !fs_quiet; reflexivity.
Qed.

(** With no failure and no image in place, the loop is the loop on a file
    system that never fails. *)
Lemma move_loop_on_quiet (pairs : list (string * value)) :
  none_in_place dst_path pairs ->
  forall done,
    move_loop_on fs dst_path keep_originals done pairs
    = move_loop dst_path keep_originals pairs.
Proof.
  induction 1 as [|[image label] rest Hp _ IH]; intros done; [reflexivity|].
  destruct label; try reflexivity.
  cbn [move_loop_on move_loop]. rewrite (perform_move_one done _ _ Hp).
  rewrite IH. destruct (move_loop dst_path keep_originals rest).
  reflexivity.
Qed.

(** The same up to an item that is reached: what comes before it is done
    in full, then the item itself. *)
Lemma move_loop_on_reaches (pre rest : list (string * value))
    (image label : string) :
  all_str pre ->
  none_in_place dst_path (pre ++ [(image, PStr label)]) ->
  forall done,
    exists later,
      fst (move_loop_on fs dst_path keep_originals done
             (pre ++ (image, PStr label) :: rest))
      = (fst (move_loop dst_path keep_originals pre)
         ++ move_one dst_path keep_originals image label ++ later)%list.
Proof.
  induction 1 as [|[image0 label0] pre Hs _ IH]; intros Hp done.
  - cbn [app] in *. inversion Hp as [|? ? Hi _]; subst.
    cbn [move_loop_on move_loop fst]. rewrite (perform_move_one done _ _ Hi).
    destruct (move_loop_on fs dst_path keep_originals _ rest) as [acts' err].
    exists acts'. reflexivity.
  - destruct label0; try discriminate Hs.
    cbn [app] in *. inversion Hp as [|? ? Hi Hp']; subst.
    rewrite move_loop_cons. cbn [move_loop_on fst].
    rewrite (perform_move_one done _ _ Hi).
    destruct (IH Hp' (done ++ move_one dst_path keep_originals image0 s)%list)
      as [later Hl].
    destruct (move_loop_on fs dst_path keep_originals _
                (pre ++ (image, PStr label) :: rest)) as [acts' err].
    cbn [fst] in *. exists later. rewrite Hl, <- app_assoc. reflexivity.
Qed.

End OnFileSystem.

Section RunOnFileSystem.

Variable fs : file_system.
Variable w : world.
Variable image_files : list string.
Variable answer src_path : string.
Variable keep_originals : bool.

(** Whatever the file system does, the calls of a run that succeed are the
    first calls of the run on a file system that never fails. *)
Lemma run_on_prefix (ask_to_proceed : bool) :
  exists k,
    fst (label_and_move_images_on fs w image_files answer src_path
           ask_to_proceed keep_originals)
    = firstn k (fst (label_and_move_images w image_files answer src_path
                       ask_to_proceed keep_originals)).
Proof.
  unfold label_and_move_images_on, label_and_move_images.
  destruct (ask_to_proceed && negb (lower answer =? "y"))%bool;
    [exists 0%nat; reflexivity|].
  destruct (get_labels w image_files) as [labels|raising];
    [|exists 0%nat; reflexivity].
  destruct (call_raises fs [] _) as [e|];
    [exists 0%nat; destruct (move_loop _ _ _); reflexivity|].
  destruct (move_loop_on_prefix fs (os_path_join src_path "sorted")
              keep_originals (combine image_files labels)
              [Makedirs (os_path_join src_path "sorted")]) as [k Hk].
  destruct (move_loop_on _ _ _ _ _) as [acts err].
  destruct (move_loop _ _ _) as [plan err'].
  cbn [fst] in *. exists (S k). cbn [firstn]. rewrite Hk. reflexivity.
Qed.




End RunOnFileSystem.



(** A file that already lies at its destination stops the run: copying it
    onto itself raises, and nothing is removed. *)
Example file_in_place_stops_the_run :
  label_and_move_images_on calm (fun _ _ => labelled "Meme_Cat")
    ["/pics/sorted/Memes/Cat.png"] "y" "/pics" true false
  = ([Makedirs "/pics/sorted"; Makedirs "/pics/sorted/Memes"],
     LoopRaised (OtherError "SameFileError")).
Proof. reflexivity. Qed.

Section Zipped.

Context {A B : Type}.

(** The zipped list, cut at a position. *)
Lemma combine_split_at (l1 : list A) (l2 : list B) :
  forall i x y,
    nth_error l1 i = Some x -> nth_error l2 i = Some y ->
    combine l1 l2
    = (combine (firstn i l1) (firstn i l2)
       ++ (x, y) :: combine (skipn (S i) l1) (skipn (S i) l2))%list.
Proof.
  revert l2. induction l1 as [|a l1 IH]; intros [|b l2] [|i] x y H1 H2;
    try discriminate H1; try discriminate H2; cbn [nth_error] in *.
  - injection H1 as ->. injection H2 as ->. reflexivity.
  - cbn [combine firstn skipn app]. f_equal. exact (IH l2 i x y H1 H2).
Qed.

Lemma in_combine_firstn (l1 : list A) (l2 : list B) (i : nat) (x : A) (y : B) :
  In (x, y) (combine (firstn i l1) (firstn i l2)) ->
  exists j, (j < i)%nat /\ nth_error l1 j = Some x /\ nth_error l2 j = Some y.
Proof.
  intros H. apply in_combine_nth in H. destruct H as (j & H1 & H2).
  apply nth_error_firstn_some in H1. apply nth_error_firstn_some in H2.
  exists j. repeat split; [apply H1|apply H1|apply H2].
Qed.

End Zipped.

(** C7 (amended). For every item whose outcome is one of the failure
    texts, the file-move step files it like any labelled item (neither text
    has an underscore, so the whole error text followed by an s names the
    folder, the file name is empty but for the dot and the extension, and
    the original is removed unless originals are kept), provided the step
    reaches the item: the user agreed, no task raised, every item before it
    got a [str], no file-system call fails, and neither it nor an item
    before it already lies at its destination. *)
Theorem failed_item_is_moved
    (fs : file_system) (w : world) (image_files : list string)
    (answer src_path : string) (keep_originals : bool)
    (i : nat) (image reason : string) :
  lower answer = "y" ->
  quiet fs ->
  (forall j f, nth_error image_files j = Some f ->
               exists v, task_outcome w j f = Returned v) ->
  (forall j f, (j < i)%nat -> nth_error image_files j = Some f ->
               exists s, task_outcome w j f = Returned (PStr s)) ->
  (forall j f s, (j <= i)%nat -> nth_error image_files j = Some f ->
                 task_outcome w j f = Returned (PStr s) ->
                 destination (os_path_join src_path "sorted") f s <> f) ->
  nth_error image_files i = Some image ->
  task_outcome w i image = Returned (PStr reason) ->
  failure_text reason ->
  before_first "_" reason = reason /\
  exists before after,
    fst (label_and_move_images_on fs w image_files answer src_path true
           keep_originals)
    = (before
       ++ filed_as (os_path_join src_path "sorted") keep_originals image
            reason EmptyString
       ++ after)%list.
Proof.
  intros Hy Hq Hret Hstr Hplace Hi Ho Hf.
  assert (contains "_" reason = false) as Hu
    by (destruct Hf as [-> | ->]; reflexivity).
  destruct (before_first_none "_" reason Hu) as [Hb Ha].
  split; [exact Hb|].
  unfold label_and_move_images_on. rewrite Hy. cbn [String.eqb Ascii.eqb].
  change (true && negb _)%bool with false. cbv iota.
  destruct (get_labels_returns w image_files Hret) as [labels E].
  rewrite E. destruct (get_labels_nth w _ _ E) as [_ Hnth].
  cbn [call_raises]. rewrite Hq.
  assert (nth_error labels i = Some (PStr reason)) as Hl.
  { destruct (Hnth i image Hi) as (v & Hv & Hov). congruence. }
  rewrite (combine_split_at image_files labels i image (PStr reason) Hi Hl).
  set (pre := combine (firstn i image_files) (firstn i labels)).
  assert (forall f v, In (f, v) pre ->
                      exists j s, (j < i)%nat /\ v = PStr s /\
                                  nth_error image_files j = Some f /\
                                  task_outcome w j f = Returned (PStr s))
    as Hpre.
  { intros f v Hin. apply in_combine_firstn in Hin.
    destruct Hin as (j & Hj & Hjf & Hjv).
    destruct (Hnth j f Hjf) as (v' & Hv' & Hov).
    destruct (Hstr j f Hj Hjf) as [s Hs].
    exists j, s. repeat split; [exact Hj|congruence|exact Hjf|exact Hs]. }
  destruct (move_loop_on_reaches fs (os_path_join src_path "sorted")
              keep_originals Hq pre
              (combine (skipn (S i) image_files) (skipn (S i) labels))
              image reason) with (done := [Makedirs (os_path_join src_path "sorted")])
    as [later Hlater].
  - apply Forall_forall. intros [f v] Hin.
    destruct (Hpre f v Hin) as (j & s & _ & -> & _). reflexivity.
  - apply Forall_app. split.
    + apply Forall_forall. intros [f v] Hin.
      destruct (Hpre f v Hin) as (j & s & Hj & -> & Hjf & Hjo).
      unfold in_place. cbn [fst snd]. apply String.eqb_neq.
      intros Heq. apply (Hplace j f s); [lia|exact Hjf|exact Hjo|].
      symmetry. exact Heq.
    + constructor; [|constructor].
      unfold in_place. cbn [fst snd]. apply String.eqb_neq.
      intros Heq. apply (Hplace i image reason); [lia|exact Hi|exact Ho|].
      symmetry. exact Heq.
  - destruct (move_loop_on _ _ _ _ _) as [acts err]. cbn [fst] in *.
    exists (Makedirs (os_path_join src_path "sorted")
            :: fst (move_loop (os_path_join src_path "sorted") keep_originals
                      pre)), later.
    rewrite Hlater, move_one_filed, Hb, Ha. reflexivity.
Qed.

Lemma failed_item_is_moved_witness :
  exists before after,
    fst (label_and_move_images_on calm one_throttled ["a.png"; "b.png"] "y"
           "/pics" true false)
    = (before
       ++ [Makedirs "/pics/sorted/Error: 429s";
           Copy "b.png" "/pics/sorted/Error: 429s/.png";
           Remove "b.png"]
       ++ after)%list.
Proof.
  refine (proj2 (failed_item_is_moved calm one_throttled ["a.png"; "b.png"]
                   "y" "/pics" false 1 "b.png" "Error: 429"
                   eq_refl _ _ _ _ eq_refl eq_refl _)).
  - intros done a. reflexivity.
  - intros j f H.
    do 2 (destruct j as [|j]; [injection H as <-; eexists; reflexivity|]).
    destruct j; discriminate H.
  - intros j f Hj H.
    destruct j as [|j]; [injection H as <-; eexists; reflexivity|lia].
  - intros j f s _ H Ho.
    do 2 (destruct j as [|j];
          [injection H as <-; injection Ho as <-; discriminate|]).
    destruct j; discriminate H.
  - left. reflexivity.
Defined.

(** C7, as stated, fails: in a batch of two whose first file gets [None]
    (a 500 at every attempt) and whose second ends with the failure text
    "Error: 429", the loop stops on the first file with [AttributeError] and
    the second file is never copied. *)
Lemma failed_item_not_reached_counterexample :
  task_outcome none_then_throttled 1 "b.png" = Returned (PStr "Error: 429") /\
  label_and_move_images_on calm none_then_throttled ["a.png"; "b.png"] "y"
    "/pics" true false
  = ([Makedirs "/pics/sorted"], LoopRaised AttributeError) /\
  (forall dst,
      ~ In (Copy "b.png" dst)
          (fst (label_and_move_images_on calm none_then_throttled
                  ["a.png"; "b.png"] "y" "/pics" true false))).
Proof.
  split; [reflexivity|]. split; [reflexivity|].
  intros dst [H|[]]. discriminate H.
Qed.

(** ** Backoff, retry by retry *)

Section Backoff.

Variable w : task_world.
Variable max_retries : Z.



End Backoff.




(** ** What the calls of a run look like, whatever the file system *)

Section Calls.

Variable dst_path : string.

Lemma move_loop_remove_after_copy (keep_originals : bool)
    (pairs : list (string * value)) :
  forall i path,
    nth_error (fst (move_loop dst_path keep_originals pairs)) i
    = Some (Remove path) ->
    keep_originals = false /\
    exists j dst,
      i = S j /\
      nth_error (fst (move_loop dst_path keep_originals pairs)) j
      = Some (Copy path dst).
Proof.
  destruct keep_originals;
    induction pairs as [|[image label] rest IH]; intros i path H;
    try (destruct i; discriminate H);
    (destruct label; try (destruct i; discriminate H));
    rewrite move_loop_cons in *; cbn [fst] in *;
    rewrite move_one_destination in *; cbn [app] in *.
  - destruct i as [|[|i]]; try discriminate H. cbn [nth_error] in H.
    destruct (IH i path H) as [Hk _]. discriminate Hk.
  - split; [reflexivity|].
    destruct i as [|[|[|i]]]; try discriminate H; cbn [nth_error] in H.
    + injection H as <-. exists 1%nat, (destination dst_path image s).
      split; reflexivity.
    + destruct (IH i path H) as (_ & j & dst & -> & Hj).
      exists (S (S (S j))), dst. split; [reflexivity|exact Hj].
Qed.

Lemma copied_firstn (l : list fs_action) :
  forall k, exists k', copied (firstn k l) = firstn k' (copied l).
Proof.
  induction l as [|a l IH]; intros [|k]; cbn [firstn copied];
    try (exists 0%nat; reflexivity).
  destruct (IH k) as [k' Hk'].
  destruct a; cbn [copied]; rewrite Hk'; [exists k'|exists (S k')|exists k'];
    reflexivity.
Qed.

End Calls.

(** X10. When [get_labels] returns, so that every task has run to its end,
    the batch of n images has made at least n and at most 5 n requests:
    every task asks at least once and at most [max_retries] times. *)
Theorem batch_requests_bounded
    (w : world) (image_files : list string) (labels : list value) :
  get_labels w image_files = Labels labels ->
  (List.length image_files <= total_posts (run_tasks w 0 image_files)
   <= 5 * List.length image_files)%nat.
Proof. intros _. apply total_posts_bounds. Qed.

Lemma batch_requests_bounded_witness :
  (List.length scenario_files <= total_posts (run_tasks scenario 0 scenario_files)
   <= 5 * List.length scenario_files)%nat.
Proof.
  exact (batch_requests_bounded scenario scenario_files
           [PStr "Screenshot_VSCode_Python"; PStr "Meme_Cat_Funny"; PNone]
           eq_refl).
Defined.

(** X11. Whatever the file system does, a file is removed only by the call
    that comes right after the successful copy of that same file, and never
    when originals are kept. *)
Theorem originals_removed_only_after_copy
    (fs : file_system) (w : world) (image_files : list string)
    (answer src_path : string) (ask_to_proceed keep_originals : bool)
    (i : nat) (path : string) :
  nth_error (fst (label_and_move_images_on fs w image_files answer src_path
                    ask_to_proceed keep_originals)) i
  = Some (Remove path) ->
  keep_originals = false /\
  exists j dst,
    i = S j /\
    nth_error (fst (label_and_move_images_on fs w image_files answer src_path
                      ask_to_proceed keep_originals)) j
    = Some (Copy path dst).
Proof.
  destruct (run_on_prefix fs w image_files answer src_path keep_originals
              ask_to_proceed) as [k ->].
  intros H. apply nth_error_firstn_some in H. destruct H as [H Hik].
  assert (keep_originals = false /\
          exists j dst,
            i = S j /\
            nth_error (fst (label_and_move_images w image_files answer
                              src_path ask_to_proceed keep_originals)) j
            = Some (Copy path dst)) as [Hk (j & dst & -> & Hj)].
  { revert H. unfold label_and_move_images.
    destruct (ask_to_proceed && negb (lower answer =? "y"))%bool;
      [destruct i; discriminate|].
    destruct (get_labels w image_files) as [labels|raising];
      [|destruct i; discriminate].
    pose proof (move_loop_remove_after_copy (os_path_join src_path "sorted")
                  keep_originals (combine image_files labels)) as Hplan.
    destruct (move_loop _ _ _) as [acts err]. cbn [fst] in *.
    destruct i as [|i]; [discriminate|]. cbn [nth_error]. intros H.
    destruct (Hplan i path H) as (Hk & j & dst & -> & Hj).
    split; [exact Hk|]. exists (S j), dst. split; [reflexivity|exact Hj]. }
  split; [exact Hk|]. exists j, dst. split; [reflexivity|].
  rewrite nth_error_firstn_lt by lia. exact Hj.
Qed.

Lemma originals_removed_only_after_copy_witness :
  false = false /\
  exists j dst,
    3%nat = S j /\
    nth_error (fst (label_and_move_images_on calm one_throttled
                      ["a.png"; "b.png"] "y" "/pics" true false)) j
    = Some (Copy "a.png" dst).
Proof.
  exact (originals_removed_only_after_copy calm one_throttled
           ["a.png"; "b.png"] "y" "/pics" true false 3 "a.png" eq_refl).
Defined.

(** X12. Whatever the file system does, the images the loop copies are,
    in order, the first of the images paired with the [str] labels that come
    before the first label that is not a [str]: no image at or after that
    label is copied. When no call fails and no image lies at its destination,
    the loop copies all of those and ends with [AttributeError] if some
    label is not a [str], well otherwise. *)
Theorem loop_stops_at_first_non_str
    (fs : file_system) (dst_path : string) (keep_originals : bool)
    (done : list fs_action) (pairs : list (string * value)) :
  (exists k,
      copied (fst (move_loop_on fs dst_path keep_originals done pairs))
      = firstn k (map fst (str_prefix pairs))) /\
  (quiet fs -> none_in_place dst_path pairs ->
   copied (fst (move_loop_on fs dst_path keep_originals done pairs))
   = map fst (str_prefix pairs) /\
   snd (move_loop_on fs dst_path keep_originals done pairs)
   = if forallb (fun p => is_str (snd p)) pairs then None
     else Some AttributeError).
Proof.
  assert (copied (fst (move_loop dst_path keep_originals pairs))
          = map fst (str_prefix pairs)) as Hplan.
  { rewrite move_loop_prefix. cbn [fst].
    apply move_loop_all_str, str_prefix_all_str. }
  split.
  - destruct (move_loop_on_prefix fs dst_path keep_originals pairs done)
      as [k ->].
    destruct (copied_firstn (fst (move_loop dst_path keep_originals pairs)) k)
      as [k' ->].
    exists k'. rewrite Hplan. reflexivity.
  - intros Hq Hp.
    rewrite (move_loop_on_quiet fs dst_path keep_originals Hq pairs Hp).
    split; [exact Hplan|]. rewrite move_loop_prefix. reflexivity.
Qed.

Lemma loop_stops_at_first_non_str_witness :
  copied (fst (move_loop_on calm "/pics/sorted" false []
                 [("a.png", PStr "Meme_Cat"); ("b.png", PNone);
                  ("c.png", PStr "Meme_Dog")]))
  = ["a.png"] /\
  snd (move_loop_on calm "/pics/sorted" false []
         [("a.png", PStr "Meme_Cat"); ("b.png", PNone);
          ("c.png", PStr "Meme_Dog")])
  = Some AttributeError.
Proof.
  apply (proj2 (loop_stops_at_first_non_str calm "/pics/sorted" false []
                  [("a.png", PStr "Meme_Cat"); ("b.png", PNone);
                   ("c.png", PStr "Meme_Dog")])).
  - intros done a. reflexivity.
  - repeat constructor.
Defined.

(** X14. Whatever the file system does, a run is completed only if every
    task returned a [str]: a task that raises, or that returns [None] or any
    other object, keeps the run from completing. *)
Theorem run_completes_only_if_all_str
    (fs : file_system) (w : world) (image_files : list string)
    (answer src_path : string) (ask_to_proceed keep_originals : bool) :
  snd (label_and_move_images_on fs w image_files answer src_path
         ask_to_proceed keep_originals) = Completed ->
  forall i f, nth_error image_files i = Some f ->
              exists s, task_outcome w i f = Returned (PStr s).
Proof.
  unfold label_and_move_images_on. intros H i f Hf.
  destruct (ask_to_proceed && negb (lower answer =? "y"))%bool;
    [discriminate H|].
  destruct (get_labels w image_files) as [labels|raising] eqn:E;
    [|discriminate H].
  destruct (call_raises fs [] _) as [e|]; [discriminate H|].
  pose proof (move_loop_on_none fs (os_path_join src_path "sorted")
                keep_originals (combine image_files labels)
                [Makedirs (os_path_join src_path "sorted")]) as Hnone.
  destruct (move_loop_on _ _ _ _ _) as [acts [e|]]; [discriminate H|].
  specialize (Hnone eq_refl). rewrite forallb_forall in Hnone.
  destruct (get_labels_nth w _ _ E) as [_ Hnth].
  destruct (Hnth i f Hf) as (v & Hv & Ho).
  assert (In (f, v) (combine image_files labels)) as Hin.
  { rewrite (combine_split_at image_files labels i f v Hf Hv).
    apply in_or_app. right. left. reflexivity. }
  specialize (Hnone _ Hin). cbn [snd] in Hnone.
  destruct v; try discriminate Hnone. eauto.
Qed.

Lemma run_completes_only_if_all_str_witness :
  snd (label_and_move_images_on calm scenario scenario_files "y" "/pics" true
         false)
  <> Completed.
Proof.
  intros H.
  destruct (run_completes_only_if_all_str calm scenario scenario_files "y"
              "/pics" true false H 2 "c.png" eq_refl) as [s Hs].
  discriminate Hs.
Defined.

Section FolderNames.

Lemma startswith_no_slash (category : string) :
  contains "/" category = false ->
  startswith (category ++ "s") "/" = false.
Proof.
  destruct category as [|c category]; [reflexivity|].
  cbn [contains append startswith]. intros H.
  apply orb_false_elim in H. apply H.
Qed.

Lemma ends_with_s_not_dots (category : string) :
  category ++ "s" <> "." /\ category ++ "s" <> "..".
Proof.
  destruct category as [|c [|c' [|c'' category]]]; cbn [append];
    split; discriminate.
Qed.

End FolderNames.

(** X16. The category is not sanitized. A label that starts with a slash is
    filed under the absolute folder named by its category followed by an s,
    outside [dst_path] whatever it is. A label whose category has no slash is
    filed in a direct subfolder of [dst_path]: the folder is [dst_path], the
    separator, and the single name made of the category and an s, which has
    no slash and is neither a dot nor two dots. Nothing is said here of a
    category with a slash inside, which can lead elsewhere. *)
Theorem folder_location (dst_path label : string) :
  let category := hd EmptyString (split "_" label) in
  (startswith label "/" = true ->
   folder_of dst_path label = category ++ "s") /\
  (contains "/" category = false ->
   folder_of dst_path label = os_path_join dst_path "" ++ category ++ "s" /\
   contains "/" (category ++ "s") = false /\
   category ++ "s" <> "." /\
   category ++ "s" <> "..").
Proof.
  cbv zeta. unfold folder_of. split; intros H.
  - unfold os_path_join. rewrite startswith_category, H. reflexivity.
  - split; [apply os_path_join_name, startswith_no_slash, H|].
    split; [rewrite contains_app, H; reflexivity|].
    apply ends_with_s_not_dots.
Qed.

Lemma folder_location_witness :
  folder_of "/pics/sorted" "/etc/cron_x" = "/etc/crons" /\
  folder_of "/pics/sorted" "Meme_Cat" = "/pics/sorted/Memes".
Proof.
  split.
  - exact (proj1 (folder_location "/pics/sorted" "/etc/cron_x") eq_refl).
  - exact (proj1 (proj2 (folder_location "/pics/sorted" "Meme_Cat") eq_refl)).
Defined.

(** A category with a slash inside can leave the sorted folder. *)
Example folder_escapes :
  folder_of "/pics/sorted" "../../tmp/escape_x"
  = "/pics/sorted/../../tmp/escapes".
Proof. reflexivity. Qed.

(** X18. [sanitize_label] keeps the length of its argument, and it leaves
    a text unchanged exactly when the text has none of the eight characters
    slash, colon, star, question mark, double quote (written ["034"]),
    less-than, greater-than and bar. *)
Theorem sanitize_label_length_and_fixpoints (s : string) :
  String.length (sanitize_label s) = String.length s /\
  (sanitize_label s = s <->
   Forall (fun c => contains c s = false)
     ["/"; ":"; "*"; "?"; "034"; "<"; ">"; "|"]%char).
Proof.
  rewrite sanitize_label_map. split; [|split].
  - induction s as [|c s IH]; cbn [map_string String.length]; congruence.
  - intros H. apply Forall_forall. intros c Hc.
    rewrite <- H. apply contains_sanitized, Hc.
  - induction s as [|c s IH]; intros H; [reflexivity|].
    apply clean_cons in H. destruct H as [Hc Hs].
    cbn [map_string]. rewrite (sanitize_char_fixed _ Hc), (IH Hs).
    reflexivity.
Qed.

Lemma sanitize_label_length_and_fixpoints_witness :
  sanitize_label "Cat_Dog v2.png" = "Cat_Dog v2.png" /\
  sanitize_label "a/b:c" <> "a/b:c".
Proof.
  split.
  - apply (proj2 (proj2 (sanitize_label_length_and_fixpoints "Cat_Dog v2.png"))).
    repeat constructor.
  - intros H.
    apply (proj1 (proj2 (sanitize_label_length_and_fixpoints "a/b:c"))) in H.
    inversion H as [|? ? Hslash _]. discriminate Hslash.
Defined.
